(** * Nexus AI v2.0: the request glue, the chat session and the persona registry

    A shallow embedding of the TypeScript sources:
    - [types.ts]                      -> [Module Types]
    - [services/geminiService.ts]     -> [Module GeminiService]
    - [hooks/usePersona.ts]           -> [Module UsePersonas]
    - [components/Chatbot.tsx]        -> [Module PersonaPanel] (the persona
                                         controls) and [Module Chatbot] (the
                                         conversation)
    - [components/ImageGenerator.tsx] -> [Module ImageGenerator]
    - [components/ImageEditor.tsx]    -> [Module ImageEditor]

    React state cells are fields of a record and every handler is a
    function from the state in which it is invoked to the states it
    produces.  The remote service, the file reader, the clock,
    [localStorage] and [window.confirm] are inputs of the handlers: a
    handler receives what they answer.  [handleSend] and
    [transcribeAudio] yield the list of states the component goes
    through: one for each [await] at which the handler is suspended, then
    the state in which it returns, if it does (the promise of
    [fileToGenerativePart] may stay pending).  The other handlers yield
    the state in which they return.  The persona maps are plain objects:
    they are read with [Js.get], which follows the prototype chain as
    [obj[key]] does. *)

From Stdlib Require Import ZArith Lia Ascii Sorted.
From stdpp Require Import base list strings pretty gmap.

Open Scope string_scope.
Open Scope list_scope.
Open Scope nat_scope.
Open Scope stdpp_scope.

(** ** JavaScript values used by the sources *)

Module Js.

(** A JavaScript string is a sequence of code units; one [ascii] stands
    for one code unit below 256.  (The few characters beyond that range in
    the persona constants of [types.ts] appear as their UTF-8 bytes; these
    constants are only ever compared as a whole.) *)

(** Truthiness of a string: every string but the empty one. *)
Definition truthy (s : string) : bool :=
  match s with
  | EmptyString => false
  | String _ _ => true
  end.

(** Truthiness of [string | null | undefined]. *)
Definition truthy_opt (o : option string) : bool :=
  match o with
  | Some s => truthy s
  | None => false
  end.

(** [o || d] where [o] is a string that may be undefined. *)
Definition or_else (o : option string) (d : string) : string :=
  match o with
  | Some s => if truthy s then s else d
  | None => d
  end.

(** WhiteSpace and LineTerminator code units below 256 (ECMAScript
    [String.prototype.trim]): TAB, LF, VT, FF, CR, SP, NBSP. *)
Definition is_white_space (c : ascii) : bool :=
  let n := N_of_ascii c in
  ((9 <=? n) && (n <=? 13) || (n =? 32) || (n =? 160))%N.

Fixpoint trimStart (s : string) : string :=
  match s with
  | EmptyString => EmptyString
  | String c s' => if is_white_space c then trimStart s' else s
  end.

Fixpoint trimEnd (s : string) : string :=
  match s with
  | EmptyString => EmptyString
  | String c s' =>
      match trimEnd s' with
      | EmptyString => if is_white_space c then EmptyString else String c EmptyString
      | t => String c t
      end
  end.

Definition trim (s : string) : string := trimEnd (trimStart s).

(** [l.slice(0, e)]: a negative [e] counts from the end of the array. *)
Definition slice0 {A} (e : Z) (l : list A) : list A :=
  let len := Z.of_nat (length l) in
  let stop := if (e <? 0)%Z then Z.max (len + e) 0 else Z.min e len in
  take (Z.to_nat stop) l.

(** The line feed of the template strings, and the double quote. *)
Definition LF : string := String "010"%char EmptyString.
Definition DQUOTE : string := String "034"%char EmptyString.

(** A thrown value: an [Error] object with its message, or any other
    value, whose [message] property may be missing. *)
Inductive Thrown :=
| new_Error (msg : string)
| OtherValue (msg : option string).

(** [e.message] *)
Definition message (e : Thrown) : option string :=
  match e with
  | new_Error msg => Some msg
  | OtherValue msg => msg
  end.

(** [e instanceof Error] *)
Definition instanceofError (e : Thrown) : bool :=
  match e with
  | new_Error _ => true
  | OtherValue _ => false
  end.

(** The outcome of awaiting a promise, or of a call that may throw. *)
Inductive Settled (A : Type) :=
| Fulfilled (a : A)
| Rejected (e : Thrown).
Arguments Fulfilled {A} a.
Arguments Rejected {A} e.

(** What an [await] finds: a promise that settles, or a promise that
    stays pending, in which case the handler is never resumed. *)
Inductive Awaited (A : Type) :=
| Settles (s : Settled A)
| Pending.
Arguments Settles {A} s.
Arguments Pending {A}.

(** The names of the properties of [Object.prototype].  A plain object,
    such as an object literal or what [JSON.parse] returns, inherits
    them. *)
Definition Object_prototype : list string :=
  ["constructor"; "hasOwnProperty"; "isPrototypeOf"; "propertyIsEnumerable";
   "toLocaleString"; "toString"; "valueOf"; "__proto__";
   "__defineGetter__"; "__defineSetter__"; "__lookupGetter__"; "__lookupSetter__"].

(** [obj[key]] for a plain object used as a map: the value of its own
    property [key]; else, when [key] names a property of
    [Object.prototype], that property (a function, or the prototype
    itself for [__proto__]); else undefined. *)
Inductive Property (A : Type) :=
| own (a : A)
| inherited (key : string)
| undefined.
Arguments own {A} a.
Arguments inherited {A} key.
Arguments undefined {A}.

Definition get {A} (obj : gmap string A) (key : string) : Property A :=
  match obj !! key with
  | Some a => own a
  | None => if bool_decide (key ∈ Object_prototype) then inherited key else undefined
  end.

(** Truthiness of [obj[key]] when the own values are objects: an object
    and a function are truthy, undefined is not. *)
Definition truthy_property {A} (p : Property A) : bool :=
  match p with
  | own _ | inherited _ => true
  | undefined => false
  end.

End Js.

(** ** types.ts *)

Module Types.

Record InlineData := { mimeType : string; data : string }.

Record MessagePart := {
  text : option string;
  inlineData : option InlineData
}.

Definition text_part (s : string) : MessagePart :=
  {| text := Some s; inlineData := None |}.

Definition inline_part (d : InlineData) : MessagePart :=
  {| text := None; inlineData := Some d |}.

Inductive Role := user | model.

Record Message := { role : Role; parts : list MessagePart }.

Record Persona := {
  id : string;
  name : string;
  instruction : string;
  welcomeMessage : string
}.

Definition Nexus : Persona :=
  {| id := "Nexus";
     name := "Nexus (Default)";
     instruction := "You are Nexus, an advanced AI assistant. Be helpful, clear, and concise. You can analyze images and text with great detail.";
     welcomeMessage := "Hello! I’m Nexus. How can I assist you today?" |}.

Definition Professional : Persona :=
  {| id := "Professional";
     name := "Professional";
     instruction := "You are a professional assistant. Use formal language, be respectful, and provide structured responses.";
     welcomeMessage := "Good day. How may I be of service?" |}.

Definition Friendly : Persona :=
  {| id := "Friendly";
     name := "Friendly";
     instruction := "You are a warm and friendly assistant. Be cheerful, conversational, and engaging.";
     welcomeMessage := "Hey there! 😊 What’s on your mind?" |}.

Definition Witty : Persona :=
  {| id := "Witty";
     name := "Witty";
     instruction := "You are a witty and clever assistant. Use humor, wordplay, and clever phrasing.";
     welcomeMessage := "Well hello! Ready for some banter and brilliance?" |}.

(** [Record<string, Persona>]: a plain object used as a map; these are
    its own properties, and it is read with [Js.get]. *)
Definition defaultPersonas : gmap string Persona :=
  <["Nexus" := Nexus]>
    (<["Professional" := Professional]>
       (<["Friendly" := Friendly]>
          (<["Witty" := Witty]> ∅))).

End Types.

(** ** services/geminiService.ts *)

Module GeminiService.

Import Js.

Record EditedImageResponse := {
  imageUrl : option string;
  text : option string
}.

(** *** generateImage

    [generatedImages] is what the service answered: the [imageBytes] of
    each image, or nothing at all. *)
Definition generateImage (response : Settled (option (list string))) : Settled string :=
  let failed := Rejected (new_Error "Failed to communicate with the image generation service.") in
  match response with
  | Rejected _ => failed
  | Fulfilled generatedImages =>
      match generatedImages with
      | Some (base64ImageBytes :: _) =>
          Fulfilled ("data:image/jpeg;base64," +:+ base64ImageBytes)
      | Some [] | None => failed          (* "No image was generated.", caught and replaced *)
      end
  end.

(** *** editImage *)

(** One turn of [for (const part of response.candidates[0].content.parts)]
    on the two variables [imageUrl] and [text]. *)
Definition edit_part (acc : option string * option string) (part : Types.MessagePart)
  : option string * option string :=
  let '(imageUrl, text) := acc in
  match Types.inlineData part, truthy_opt imageUrl with
  | Some d, false =>               (* Take the first image found *)
      (Some ("data:" +:+ Types.mimeType d +:+ ";base64," +:+ Types.data d), text)
  | _, _ =>
      match Types.text part with
      | Some t =>
          if truthy t
          then (imageUrl, Some ((match text with
                                 | Some s => if truthy s then s +:+ LF else ""
                                 | None => ""
                                 end) +:+ t))
          else acc
      | None => acc
      end
  end.

Definition edit_parts (parts : list Types.MessagePart) : option string * option string :=
  fold_left edit_part parts (None, None).

(** [candidates] is [response.candidates], each candidate given by its
    [content.parts]. *)
Definition editImage (response : Settled (option (list (list Types.MessagePart))))
  : Settled EditedImageResponse :=
  match response with
  | Rejected e =>
      if instanceofError e then Rejected e
      else Rejected (new_Error "Failed to communicate with the image editing service.")
  | Fulfilled candidates =>
      let '(imageUrl, text) :=
        match candidates with
        | Some (parts :: _) => edit_parts parts
        | Some [] | None => (None, None)
        end in
      if negb (truthy_opt imageUrl) then
        match text with
        | Some t =>
            if truthy t
            then Rejected (new_Error
                   ("The model responded with text but no image: " +:+ DQUOTE +:+ t +:+ DQUOTE))
            else Rejected (new_Error "No image was returned from the editing service.")
        | None => Rejected (new_Error "No image was returned from the editing service.")
        end
      else Fulfilled {| imageUrl := imageUrl; text := text |}
  end.

(** *** generateVideo *)

(** An operation handle: [operation.done] and
    [operation.response?.generatedVideos?.[0]?.video?.uri]. *)
Record VideoOperation := {
  done : bool;
  uri : option string
}.

(** What [fetch] answers: [response.ok] and the object URL that
    [URL.createObjectURL] makes for [response.blob()]. *)
Record FetchResponse := {
  ok : bool;
  statusText : string;
  objectURL : string
}.

(** What the function does to the outside, in order. *)
Inductive Event :=
| OnProgress
| SetTimeout (ms : Z)
| GetVideosOperation
| Fetch (url : string).

Definition one_poll : list Event := [OnProgress; SetTimeout 10000; GetVideosOperation].

(** [while (!operation.done) { onProgress(); await sleep; operation = await get }]
    against the successive answers of [getVideosOperation].  The result is
    [None] when the answers run out while the loop is still waiting. *)
Fixpoint poll (operation : VideoOperation) (answers : list (Settled VideoOperation))
  : list Event * option (Settled VideoOperation) :=
  if done operation then ([], Some (Fulfilled operation))
  else
    match answers with
    | [] => ([OnProgress; SetTimeout 10000], None)
    | Rejected e :: _ => (one_poll, Some (Rejected e))
    | Fulfilled operation' :: answers' =>
        let '(events, r) := poll operation' answers' in
        (one_poll ++ events, r)
    end.

Definition generateVideo (API_KEY : string)
    (started : Settled VideoOperation)
    (answers : list (Settled VideoOperation))
    (fetch : string -> Settled FetchResponse)
  : list Event * option (Settled string) :=
  let failed := Some (Rejected (new_Error "Failed to communicate with the video generation service.")) in
  match started with
  | Rejected _ => ([], failed)
  | Fulfilled operation =>
      match poll operation answers with
      | (events, None) => (events, None)
      | (events, Some (Rejected _)) => (events, failed)
      | (events, Some (Fulfilled operation)) =>
          match uri operation with
          | Some downloadLink =>
              if truthy downloadLink then
                let url := downloadLink +:+ "&key=" +:+ API_KEY in
                match fetch url with
                | Fulfilled response =>
                    if ok response
                    then (events ++ [Fetch url], Some (Fulfilled (objectURL response)))
                    else (events ++ [Fetch url], failed)
                | Rejected _ => (events ++ [Fetch url], failed)
                end
              else (events, failed)
          | None => (events, failed)
          end
      end
  end.

End GeminiService.

(** ** hooks/usePersona.ts *)

Module UsePersonas.

Import Js.

Definition STORAGE_KEY : string := "nexus-custom-personas".

(** The [personas] state cell and the item stored under [STORAGE_KEY]
    (the parsed object; [None] when the item is absent or unreadable). *)
Record State := {
  personas : gmap string Types.Persona;
  stored : option (gmap string Types.Persona)
}.

(** [useState(defaultPersonas)] *)
Definition initial (stored : option (gmap string Types.Persona)) : State :=
  {| personas := Types.defaultPersonas; stored := stored |}.

(** The mount effect: [setPersonas({ ...defaultPersonas, ...customPersonas })]. *)
Definition load (st : State) : State :=
  match stored st with
  | Some customPersonas =>
      {| personas := customPersonas ∪ Types.defaultPersonas; stored := stored st |}
  | None => st
  end.

(** [Object.fromEntries(Object.entries(updated).filter(([key]) => !defaultPersonas[key]))] *)
Definition custom_entries (updated : gmap string Types.Persona) : gmap string Types.Persona :=
  filter (λ kv, truthy_property (get Types.defaultPersonas kv.1) = false) updated.

(** [localStorage.setItem] inside [try]: a write that throws is logged and
    leaves the stored item as it was. *)
Definition setItem (succeeds : bool) (value : gmap string Types.Persona)
    (old : option (gmap string Types.Persona)) : option (gmap string Types.Persona) :=
  if succeeds then Some value else old.

Definition savePersona (persona : Types.Persona) (succeeds : bool) (st : State) : State :=
  let updated := <[Types.id persona := persona]> (personas st) in
  {| personas := updated;
     stored := setItem succeeds (custom_entries updated) (stored st) |}.

Definition deletePersona (id : string) (succeeds : bool) (st : State) : State :=
  if truthy_property (get Types.defaultPersonas id) then st
                                       (* Cannot delete default personas *)
  else
    let updated := delete id (personas st) in
    {| personas := updated;
       stored := setItem succeeds (custom_entries updated) (stored st) |}.

(** The calls a client of the hook can make. *)
Inductive Call :=
| Save (persona : Types.Persona) (succeeds : bool)
| Delete (id : string) (succeeds : bool).

Definition call (st : State) (c : Call) : State :=
  match c with
  | Save persona succeeds => savePersona persona succeeds st
  | Delete id succeeds => deletePersona id succeeds st
  end.

Definition calls (cs : list Call) (st : State) : State := fold_left call cs st.

End UsePersonas.

(** ** components/Chatbot.tsx: the persona controls *)

Module PersonaPanel.

Import Js.

(** The state cells the persona controls read and write, the hook they
    use, and the [localStorage] item ['selectedPersonaId']. *)
Record State := {
  hook : UsePersonas.State;
  selectedPersonaId : string;
  isModalOpen : bool;
  editingPersona : option Types.Persona;
  savedSelectedPersonaId : option string
}.

(** [useState<string>('Professional')] and the other initial values. *)
Definition initial (stored : option (gmap string Types.Persona)) (saved : option string) : State :=
  {| hook := UsePersonas.initial stored;
     selectedPersonaId := "Professional";
     isModalOpen := false;
     editingPersona := None;
     savedSelectedPersonaId := saved |}.

Definition personas (st : State) : gmap string Types.Persona :=
  UsePersonas.personas (hook st).

(** [personas[selectedPersonaId] || personas['Professional']]: a persona
    of the map, or, when the selected id names a property of
    [Object.prototype] and is no key of the map, that property. *)
Definition personaConfig (st : State) : Property Types.Persona :=
  match get (personas st) (selectedPersonaId st) with
  | undefined => get (personas st) "Professional"
  | found => found
  end.

(** [selectedPersonaId && !defaultPersonas[selectedPersonaId]] *)
Definition isCustomPersona (st : State) : bool :=
  truthy (selectedPersonaId st)
  && negb (truthy_property (get Types.defaultPersonas (selectedPersonaId st))).

Definition setSelectedPersonaId (id : string) (st : State) : State :=
  {| hook := hook st; selectedPersonaId := id; isModalOpen := isModalOpen st;
     editingPersona := editingPersona st;
     savedSelectedPersonaId := savedSelectedPersonaId st |}.

Definition setModal (open : bool) (editing : option Types.Persona) (st : State) : State :=
  {| hook := hook st; selectedPersonaId := selectedPersonaId st; isModalOpen := open;
     editingPersona := editing;
     savedSelectedPersonaId := savedSelectedPersonaId st |}.

Definition setHook (h : UsePersonas.State) (st : State) : State :=
  {| hook := h; selectedPersonaId := selectedPersonaId st; isModalOpen := isModalOpen st;
     editingPersona := editingPersona st;
     savedSelectedPersonaId := savedSelectedPersonaId st |}.

(** The effects that run after a render in which [personas] changed.
    Both read the render's own [selectedPersonaId]; of the two queued
    [setSelectedPersonaId] the later one wins.
    - restore:  [if (saved && personas[saved]) setSelectedPersonaId(saved)]
    - fallback: [if (!personas[selectedPersonaId]) setSelectedPersonaId('Professional')] *)
Definition restored (st : State) : string :=
  match savedSelectedPersonaId st with
  | Some saved =>
      if truthy saved && truthy_property (get (personas st) saved)
      then saved else selectedPersonaId st
  | None => selectedPersonaId st
  end.

Definition effects (st : State) : State :=
  let afterRestore := restored st in
  let afterFallback :=
    if truthy_property (get (personas st) (selectedPersonaId st))
    then afterRestore else "Professional" in
  setSelectedPersonaId afterFallback st.

(** The effect on [selectedPersonaId]:
    [localStorage.setItem('selectedPersonaId', selectedPersonaId)]. *)
Definition persist (succeeds : bool) (st : State) : State :=
  {| hook := hook st; selectedPersonaId := selectedPersonaId st;
     isModalOpen := isModalOpen st; editingPersona := editingPersona st;
     savedSelectedPersonaId :=
       if succeeds then Some (selectedPersonaId st) else savedSelectedPersonaId st |}.

Definition handleOpenCreateModal (st : State) : State := setModal true None st.

(** [if (currentPersona && isCustomPersona)].  When [currentPersona] is a
    property of [Object.prototype] the test fails: [isCustomPersona] is
    false for an id that names one. *)
Definition handleOpenEditModal (st : State) : State :=
  match get (personas st) (selectedPersonaId st) with
  | own currentPersona =>
      if isCustomPersona st then setModal true (Some currentPersona) st else st
  | inherited _ => st
  | undefined => st
  end.

(** [personaData] is the modal's [{ name, instruction, welcomeMessage }];
    [now] is [Date.now()]. *)
Definition handleSaveOrUpdatePersona (personaData : string * string * string)
    (now : N) (succeeds : bool) (st : State) : State :=
  let '(name, instruction, welcomeMessage) := personaData in
  let withId id :=
    {| Types.id := id; Types.name := name; Types.instruction := instruction;
       Types.welcomeMessage := welcomeMessage |} in
  match editingPersona st with
  | Some editing =>
      setModal false None
        (setHook (UsePersonas.savePersona (withId (Types.id editing)) succeeds (hook st)) st)
  | None =>
      let id := "custom-" +:+ pretty now in
      setModal false None
        (setSelectedPersonaId id
           (setHook (UsePersonas.savePersona (withId id) succeeds (hook st)) st))
  end.

(** [confirmed] is what [window.confirm] answers. *)
Definition handleDeletePersona (confirmed : bool) (succeeds : bool) (st : State) : State :=
  if negb (isCustomPersona st) then st
  else if confirmed
       then setHook (UsePersonas.deletePersona (selectedPersonaId st) succeeds (hook st)) st
       else st.

(** [PersonaCreatorModal]'s [handleSave] calls [onSave] only when
    [name.trim() && instruction.trim() && welcomeMessage.trim()]. *)
Definition modal_complete (personaData : string * string * string) : bool :=
  let '(name, instruction, welcomeMessage) := personaData in
  truthy (trim name) && truthy (trim instruction) && truthy (trim welcomeMessage).

(** The values of the [<option>]s of the persona [<select>]: the ids of
    [Object.values(defaultPersonas)], then the ids of [customPersonas],
    which is [Object.values(personas).filter(p => !defaultPersonas[p.id])].
    (Their order on the page is not modelled.) *)
Definition customPersonas (st : State) : list Types.Persona :=
  filter (λ p, truthy_property (get Types.defaultPersonas (Types.id p)) = false)
    (map snd (map_to_list (personas st))).

Definition options (st : State) : list string :=
  map Types.id (map snd (map_to_list Types.defaultPersonas))
  ++ map Types.id (customPersonas st).

(** What happens to the persona controls: the hook's mount effect, the
    user's actions and the component's effects. *)
Inductive Action :=
| Mount
| Select (id : string)                 (* the [<select>]'s onChange *)
| OpenCreate
| OpenEdit
| CloseModal
| SaveModal (personaData : string * string * string) (now : N) (succeeds : bool)
| DeleteSelected (confirmed succeeds : bool)
| RunEffects
| Persist (succeeds : bool).

Definition act (st : State) (a : Action) : State :=
  match a with
  | Mount => setHook (UsePersonas.load (hook st)) st
  | Select id =>
      (* [e.target.value] is the value of one of the options *)
      if bool_decide (id ∈ options st) then setSelectedPersonaId id st else st
  | OpenCreate => handleOpenCreateModal st
  | OpenEdit => handleOpenEditModal st
  | CloseModal => setModal false None st
  | SaveModal personaData now succeeds =>
      (* the modal, and with it its Save button, exists only while open *)
      if isModalOpen st && modal_complete personaData
      then handleSaveOrUpdatePersona personaData now succeeds st else st
  | DeleteSelected confirmed succeeds => handleDeletePersona confirmed succeeds st
  | RunEffects => effects st
  | Persist succeeds => persist succeeds st
  end.

Definition run (acts : list Action) (st : State) : State := fold_left act acts st.

End PersonaPanel.

(** ** components/Chatbot.tsx: the conversation *)

Module Chatbot.

Import Js.

(** A [File] as far as the component looks at it. *)
Record File := { fileName : string; type : string }.

Inductive FileKind := image | audio.

(** The state cells of the conversation, whether [chatRef.current] holds a
    chat, and the utterances queued in [window.speechSynthesis]. *)
Record State := {
  messages : list Types.Message;
  input : string;
  attachedFile : option File;
  fileType : option FileKind;
  loading : bool;
  isTranscribing : bool;
  error : option string;
  isTtsEnabled : bool;
  chatRef : bool;
  speechSynthesis : list string
}.

Definition setMessages (f : list Types.Message -> list Types.Message) (st : State) : State :=
  {| messages := f (messages st); input := input st; attachedFile := attachedFile st;
     fileType := fileType st; loading := loading st; isTranscribing := isTranscribing st;
     error := error st; isTtsEnabled := isTtsEnabled st; chatRef := chatRef st;
     speechSynthesis := speechSynthesis st |}.

Definition setInput (f : string -> string) (st : State) : State :=
  {| messages := messages st; input := f (input st); attachedFile := attachedFile st;
     fileType := fileType st; loading := loading st; isTranscribing := isTranscribing st;
     error := error st; isTtsEnabled := isTtsEnabled st; chatRef := chatRef st;
     speechSynthesis := speechSynthesis st |}.

Definition setAttachedFile (file : option File) (kind : option FileKind) (st : State) : State :=
  {| messages := messages st; input := input st; attachedFile := file;
     fileType := kind; loading := loading st; isTranscribing := isTranscribing st;
     error := error st; isTtsEnabled := isTtsEnabled st; chatRef := chatRef st;
     speechSynthesis := speechSynthesis st |}.

Definition setLoading (b : bool) (st : State) : State :=
  {| messages := messages st; input := input st; attachedFile := attachedFile st;
     fileType := fileType st; loading := b; isTranscribing := isTranscribing st;
     error := error st; isTtsEnabled := isTtsEnabled st; chatRef := chatRef st;
     speechSynthesis := speechSynthesis st |}.

Definition setIsTranscribing (b : bool) (st : State) : State :=
  {| messages := messages st; input := input st; attachedFile := attachedFile st;
     fileType := fileType st; loading := loading st; isTranscribing := b;
     error := error st; isTtsEnabled := isTtsEnabled st; chatRef := chatRef st;
     speechSynthesis := speechSynthesis st |}.

Definition setError (e : option string) (st : State) : State :=
  {| messages := messages st; input := input st; attachedFile := attachedFile st;
     fileType := fileType st; loading := loading st; isTranscribing := isTranscribing st;
     error := e; isTtsEnabled := isTtsEnabled st; chatRef := chatRef st;
     speechSynthesis := speechSynthesis st |}.

Definition setSpeech (f : list string -> list string) (st : State) : State :=
  {| messages := messages st; input := input st; attachedFile := attachedFile st;
     fileType := fileType st; loading := loading st; isTranscribing := isTranscribing st;
     error := error st; isTtsEnabled := isTtsEnabled st; chatRef := chatRef st;
     speechSynthesis := f (speechSynthesis st) |}.

(** [fileToGenerativePart], as far as its promise goes.  [reader] is what
    [onloadend] finds: [Some payload], the [reader.result.split(',')[1]]
    of a file that has been read, or [None] when reading has failed and
    [reader.result] is null.  The promise is made with a [resolve] and no
    [reject]: in the second case [onloadend] throws outside of it and it
    stays pending. *)
Definition fileToGenerativePart (reader : option string) : Awaited string :=
  match reader with
  | Some payload => Settles (Fulfilled payload)
  | None => Pending
  end.

(** What the outside answers during one [handleSend]: what the file
    reader finds for the attachment, and the stream that
    [sendMessageStream] opens, given by the [chunk.text] of its chunks in
    order and by the error it throws instead of ending, if any. *)
Record Stream := {
  chunks : list string;
  failure : option Thrown
}.

Record Remote := {
  reader : option string;
  sendMessageStream : Settled Stream
}.

(** [if ((!input.trim() && !attachedFile) || loading) return;] *)
Definition ignored (st : State) : bool :=
  (negb (truthy (trim (input st))) && negb (bool_decide (is_Some (attachedFile st))))
  || loading st.

Definition userMessage (userParts : list Types.MessagePart) : Types.Message :=
  {| Types.role := Types.user; Types.parts := userParts |}.

(** [{ role: 'model', parts: [{ text }] }] *)
Definition modelMessage (text : string) : Types.Message :=
  {| Types.role := Types.model; Types.parts := [Types.text_part text] |}.

(** [lastMessage.parts[0]?.text ?? ''] *)
Definition existingText (lastMessage : Types.Message) : string :=
  match Types.parts lastMessage with
  | part :: _ => default "" (Types.text part)
  | [] => ""
  end.

(** The updater passed to [setMessages] for one chunk.  On an empty
    array [lastMessage] is undefined and nothing is replaced. *)
Definition appendChunk (chunkText : string) (currentMessages : list Types.Message)
  : list Types.Message :=
  let updatedMessages := currentMessages in
  let lastMessageIndex := (length updatedMessages - 1)%nat in
  match updatedMessages !! lastMessageIndex with
  | Some lastMessage =>
      match Types.role lastMessage with
      | Types.model =>
          <[lastMessageIndex :=
              {| Types.role := Types.role lastMessage;
                 Types.parts := [Types.text_part (existingText lastMessage +:+ chunkText)] |}]>
            updatedMessages
      | Types.user => updatedMessages
      end
  | None => updatedMessages
  end.

(** The [catch] and [finally] blocks of [handleSend]. *)
Definition catch (e : Thrown) (st : State) : State :=
  setMessages (slice0 (-1))
    (setError (Some (or_else (message e) "An error occurred while getting a response.")) st).

Definition finally (st : State) : State := setLoading false st.

(** [for await (const chunk of stream) { ... }] and what follows it.  The
    head of the result is the state in which the loop waits for the next
    chunk. *)
Fixpoint forAwait (tts : bool) (chunks : list string) (failure : option Thrown)
    (fullResponse : string) (st : State) : list State :=
  st ::
  match chunks with
  | chunkText :: chunks' =>
      forAwait tts chunks' failure (fullResponse +:+ chunkText)
        (setMessages (appendChunk chunkText) st)
  | [] =>
      match failure with
      | Some e => [finally (catch e st)]
      | None =>
          [finally (if tts && truthy fullResponse
                    then setSpeech (λ queue, queue ++ [fullResponse]) st
                    else st)]
      end
  end.

(** From [const userMessage = ...] to the end of the handler. *)
Definition converse (remote : Remote) (tts : bool) (userParts : list Types.MessagePart)
    (st : State) : list State :=
  let st := setMessages (λ prev, prev ++ [userMessage userParts]) st in
  let st := setAttachedFile None None (setInput (λ _, "") st) in
  if chatRef st then
    st ::                                        (* await sendMessageStream *)
    match sendMessageStream remote with
    | Fulfilled stream =>
        forAwait tts (chunks stream) (failure stream) ""
          (setMessages (λ prev, prev ++ [modelMessage ""]) st)
    | Rejected e => [finally (catch e st)]
    end
  else [finally (catch (new_Error "Chat not initialized.") st)].

(** The states of one call of [handleSend]; the last one is the state in
    which it returns, or, when the promise of the attachment stays
    pending, the state in which it is suspended for ever.  [input],
    [attachedFile], [loading] and [isTtsEnabled] are read once, in the
    state of the call. *)
Definition handleSend_states (remote : Remote) (st : State) : list State :=
  if ignored st then [st]
  else
    let textParts :=
      if truthy (trim (input st)) then [Types.text_part (input st)] else [] in
    let tts := isTtsEnabled st in
    let st1 := setSpeech (λ _, []) (setError None (setLoading true st)) in
    match attachedFile st with
    | Some file =>
        st1 ::                                   (* await fileToGenerativePart *)
        match fileToGenerativePart (reader remote) with
        | Settles (Fulfilled payload) =>
            let filePart :=
              Types.inline_part {| Types.data := payload; Types.mimeType := type file |} in
            converse remote tts ([filePart] ++ textParts) st1
        | Settles (Rejected _) =>
            [setLoading false (setError (Some "Failed to process the attached file.") st1)]
        | Pending => []
        end
    | None => converse remote tts textParts st1
    end.

(** The state in which the component is left. *)
Definition handleSend (remote : Remote) (st : State) : State :=
  default st (last (handleSend_states remote st)).

(** [transcribeAudio]: [reader] is what the file reader finds and
    [transcription] is the [response.text] of [generateContent].  (The
    [finally] block also empties the file input element, which is not a
    state cell.)  The last state is the one in which it returns, or, when
    the promise of the file stays pending, the one in which it is
    suspended for ever. *)
Definition merge (transcription : string) (prev : string) : string :=
  trim (if truthy prev then prev +:+ " " +:+ transcription else transcription).

Definition transcribeAudio_states (reader : option string) (transcription : Settled string)
    (st : State) : list State :=
  let st1 := setError None (setIsTranscribing true st) in
  let failed e :=
    setIsTranscribing false
      (setError (Some (or_else (message e) "Failed to transcribe audio. Please try again.")) st1) in
  st1 ::                                         (* await fileToGenerativePart *)
  match fileToGenerativePart reader with
  | Settles (Fulfilled _) =>
      st1 ::                                     (* await generateContent *)
      match transcription with
      | Fulfilled transcription => [setIsTranscribing false (setInput (merge transcription) st1)]
      | Rejected e => [failed e]
      end
  | Settles (Rejected e) => [failed e]
  | Pending => []
  end.

Definition transcribeAudio (reader : option string) (transcription : Settled string)
    (st : State) : State :=
  default st (last (transcribeAudio_states reader transcription st)).

End Chatbot.

(** ** components/ImageGenerator.tsx *)

Module ImageGenerator.

Import Js.

(** ['1:1' | '16:9' | '9:16'] *)
Inductive AspectRatio := Square | Landscape | Portrait.

Record ImageHistoryItem := {
  id : N;
  item_prompt : string;
  url : string;
  item_aspectRatio : AspectRatio
}.

(** The state cells and the [localStorage] item ['imageGenerationHistory']. *)
Record State := {
  prompt : string;
  aspectRatio : AspectRatio;
  loading : bool;
  error : option string;
  imageUrl : option string;
  history : list ImageHistoryItem;
  stored : option (list ImageHistoryItem)
}.

(** The textarea's [setPrompt] and the ratio buttons' [setAspectRatio]. *)
Definition edit (p : string) (r : AspectRatio) (st : State) : State :=
  {| prompt := p; aspectRatio := r; loading := loading st; error := error st;
     imageUrl := imageUrl st; history := history st; stored := stored st |}.

(** [now] is [Date.now()], [response] what [ai.models.generateImages]
    answers, and [quota] what [localStorage.setItem] throws, if it does. *)
Definition handleGenerate (now : N) (response : Settled (option (list string)))
    (quota : option Thrown) (st : State) : State :=
  if negb (truthy (prompt st)) then
    {| prompt := prompt st; aspectRatio := aspectRatio st; loading := loading st;
       error := Some "Please enter a prompt.";
       imageUrl := imageUrl st; history := history st; stored := stored st |}
  else
    let failed e history :=
      {| prompt := prompt st; aspectRatio := aspectRatio st; loading := false;
         error := Some (or_else (message e) "Failed to generate image. Please try again.");
         imageUrl := None; history := history; stored := stored st |} in
    match GeminiService.generateImage response with
    | Fulfilled url =>
        let newHistoryItem :=
          {| id := now; item_prompt := prompt st; url := url;
             item_aspectRatio := aspectRatio st |} in
        let updatedHistory := slice0 20 (newHistoryItem :: history st) in
        match quota with
        | None =>
            {| prompt := prompt st; aspectRatio := aspectRatio st; loading := false;
               error := None; imageUrl := Some url;
               history := updatedHistory; stored := Some updatedHistory |}
        | Some e =>
            {| prompt := prompt st; aspectRatio := aspectRatio st; loading := false;
               error := Some (or_else (message e) "Failed to generate image. Please try again.");
               imageUrl := Some url; history := updatedHistory; stored := stored st |}
        end
    | Rejected e => failed e (history st)
    end.

(** [confirmed] is what [window.confirm] answers. *)
Definition handleClearHistory (confirmed : bool) (st : State) : State :=
  if confirmed then
    {| prompt := prompt st; aspectRatio := aspectRatio st; loading := loading st;
       error := error st; imageUrl := imageUrl st; history := []; stored := None |}
  else st.

(** One successful generation: the user sets the prompt and the ratio and
    presses the button, the service answers with at least one image and
    the history is stored. *)
Record Generation := {
  g_prompt : string;
  g_aspectRatio : AspectRatio;
  g_now : N;
  g_imageBytes : string;
  g_moreImages : list string
}.

Definition generate (st : State) (g : Generation) : State :=
  handleGenerate (g_now g)
    (Fulfilled (Some (g_imageBytes g :: g_moreImages g))) None
    (edit (g_prompt g) (g_aspectRatio g) st).

(** The record that generation [g] adds to the history. *)
Definition record_of (g : Generation) : ImageHistoryItem :=
  {| id := g_now g; item_prompt := g_prompt g;
     url := "data:image/jpeg;base64," +:+ g_imageBytes g;
     item_aspectRatio := g_aspectRatio g |}.

End ImageGenerator.

(** ** components/ImageEditor.tsx *)

Module ImageEditor.

Import Js.

Record EditHistoryItem := {
  id : N;
  item_prompt : string;
  originalUrl : string;
  editedUrl : string
}.

(** The state cells and the [localStorage] item ['imageEditingHistory']. *)
Record State := {
  originalImage : option string;
  prompt : string;
  editedImage : option string;
  responseText : option string;
  loading : bool;
  error : option string;
  history : list EditHistoryItem;
  stored : option (list EditHistoryItem)
}.

(** The textarea's [setPrompt] and an upload's [setOriginalImage]. *)
Definition edit (p : string) (image : option string) (st : State) : State :=
  {| originalImage := image; prompt := p; editedImage := editedImage st;
     responseText := responseText st; loading := loading st; error := error st;
     history := history st; stored := stored st |}.

Definition reject (msg : string) (st : State) : State :=
  {| originalImage := originalImage st; prompt := prompt st;
     editedImage := editedImage st; responseText := responseText st;
     loading := loading st; error := Some msg;
     history := history st; stored := stored st |}.

(** [response] is what [ai.models.generateContent] answers to the request
    built from the prompt and the data URL of the original image. *)
Definition handleGenerate (now : N)
    (response : Settled (option (list (list Types.MessagePart))))
    (quota : option Thrown) (st : State) : State :=
  if negb (truthy (prompt st)) then reject "Please enter a prompt to describe your edit." st
  else
    match originalImage st with
    | None => reject "Please upload an image to edit." st
    | Some original =>
        if negb (truthy original) then reject "Please upload an image to edit." st
        else
          let failure e := Some (or_else (message e) "Failed to edit image. Please try again.") in
          match GeminiService.editImage response with
          | Fulfilled result =>
              let edited :=
                if truthy_opt (GeminiService.imageUrl result)
                then GeminiService.imageUrl result else None in
              let text :=
                if truthy_opt (GeminiService.text result)
                then GeminiService.text result else None in
              let newHistoryItem :=
                {| id := now; item_prompt := prompt st; originalUrl := original;
                   editedUrl := default "" (GeminiService.imageUrl result) |} in
              let updatedHistory := slice0 20 (newHistoryItem :: history st) in
              match quota with
              | None =>
                  {| originalImage := originalImage st; prompt := prompt st;
                     editedImage := edited; responseText := text;
                     loading := false; error := None;
                     history := updatedHistory; stored := Some updatedHistory |}
              | Some e =>
                  {| originalImage := originalImage st; prompt := prompt st;
                     editedImage := edited; responseText := text;
                     loading := false; error := failure e;
                     history := updatedHistory; stored := stored st |}
              end
          | Rejected e =>
              {| originalImage := originalImage st; prompt := prompt st;
                 editedImage := None; responseText := None;
                 loading := false; error := failure e;
                 history := history st; stored := stored st |}
          end
    end.

(** One successful edit: the user sets the prompt and the image and
    presses the button, the service answers with parts that hold an image
    and the history is stored. *)
Record Edit := {
  e_prompt : string;
  e_original : string;
  e_now : N;
  e_parts : list Types.MessagePart;
  e_moreCandidates : list (list Types.MessagePart)
}.

Definition perform (st : State) (e : Edit) : State :=
  handleGenerate (e_now e) (Fulfilled (Some (e_parts e :: e_moreCandidates e))) None
    (edit (e_prompt e) (Some (e_original e)) st).

(** An edit succeeds when its inputs pass the guards and the answer holds
    an image. *)
Definition succeeds (e : Edit) : bool :=
  truthy (e_prompt e) && truthy (e_original e)
  && truthy_opt (fst (GeminiService.edit_parts (e_parts e))).

(** The record that edit [e] adds to the history. *)
Definition record_of (e : Edit) : EditHistoryItem :=
  {| id := e_now e; item_prompt := e_prompt e; originalUrl := e_original e;
     editedUrl := default "" (fst (GeminiService.edit_parts (e_parts e))) |}.

End ImageEditor.

(** * Properties *)

(** ** Arrays and strings *)

Section JsFacts.

Context {A : Type}.
Implicit Types l : list A.

Lemma slice0_nonneg (n : nat) l : Js.slice0 (Z.of_nat n) l = take n l.
Proof.
  unfold Js.slice0.
  destruct (Z.ltb_spec (Z.of_nat n) 0) as [Hneg | _]; [lia |].
  destruct (decide (n ≤ length l)) as [Hle | Hgt].
  - rewrite Z.min_l by lia. by rewrite Nat2Z.id.
  - rewrite Z.min_r by lia. rewrite Nat2Z.id.
    rewrite !take_ge by lia. done.
Qed.

Lemma slice0_20 l : Js.slice0 20 l = take 20 l.
Proof. apply (slice0_nonneg 20). Qed.

Lemma slice0_drop_last l x : Js.slice0 (-1) (l ++ [x]) = l.
Proof.
  unfold Js.slice0. rewrite length_app. simpl.
  replace (Z.to_nat _) with (length l) by lia.
  by rewrite take_app_length.
Qed.

Lemma slice0_drop_last_nil : Js.slice0 (-1) (@nil A) = [].
Proof. reflexivity. Qed.

End JsFacts.

(** ** Lookups in plain objects *)

Section Properties.

Context {A : Type}.
Implicit Types (obj : gmap string A) (key : string).

Lemma get_own obj key a : Js.get obj key = Js.own a ↔ obj !! key = Some a.
Proof.
  unfold Js.get. destruct (obj !! key) as [b |].
  - split; by intros [= ->].
  - destruct (bool_decide (key ∈ Js.Object_prototype)); split; intros Heq; discriminate Heq.
Qed.

Lemma get_undefined obj key :
  Js.get obj key = Js.undefined ↔ obj !! key = None ∧ key ∉ Js.Object_prototype.
Proof.
  unfold Js.get. destruct (obj !! key) as [b |].
  - split; [intros Heq | intros [Heq _]]; discriminate Heq.
  - case_bool_decide as Hproto; split.
    + intros Heq; discriminate Heq.
    + by intros [_ ?].
    + done.
    + done.
Qed.

Lemma get_inherited obj key name :
  Js.get obj key = Js.inherited name ↔
  name = key ∧ obj !! key = None ∧ key ∈ Js.Object_prototype.
Proof.
  unfold Js.get. destruct (obj !! key) as [b |].
  - split; [intros Heq | intros (_ & Heq & _)]; discriminate Heq.
  - case_bool_decide as Hproto; split.
    + by intros [= <-].
    + by intros (-> & _ & _).
    + intros Heq; discriminate Heq.
    + by intros (_ & _ & ?).
Qed.

Lemma falsy_get obj key :
  Js.truthy_property (Js.get obj key) = false ↔ Js.get obj key = Js.undefined.
Proof. destruct (Js.get obj key); split; intros Heq; done || discriminate Heq. Qed.

Lemma truthy_get obj key :
  Js.truthy_property (Js.get obj key) = true ↔
  is_Some (obj !! key) ∨ key ∈ Js.Object_prototype.
Proof.
  unfold Js.get. destruct (obj !! key) as [b |].
  - split; [by eauto | done].
  - case_bool_decide as Hproto; split.
    + by right.
    + done.
    + intros Heq; discriminate Heq.
    + intros [[? Heq] | Hin]; [discriminate Heq | done].
Qed.

End Properties.

(** ** The persona registry *)

Section Registry.

Import Js.
Import Types.

Implicit Types (m : gmap string Persona) (k : string) (p : Persona).

Lemma defaultPersonas_keys k :
  is_Some (defaultPersonas !! k) ↔
  k = "Nexus" ∨ k = "Professional" ∨ k = "Friendly" ∨ k = "Witty".
Proof.
  unfold defaultPersonas. rewrite !lookup_insert, lookup_empty. split.
  - intros Hk. repeat case_decide; auto. by destruct Hk as [? [=]].
  - intros [-> | [-> | [-> | ->]]]; repeat case_decide; by eauto.
Qed.

Lemma defaultPersonas_id k p : defaultPersonas !! k = Some p → id p = k.
Proof.
  unfold defaultPersonas. rewrite !lookup_insert, lookup_empty.
  repeat case_decide; subst; intros [= <-]; reflexivity.
Qed.

Lemma custom_id_fresh (now : N) : defaultPersonas !! ("custom-" +:+ pretty now) = None.
Proof.
  apply eq_None_not_Some. rewrite defaultPersonas_keys.
  intros [H | [H | [H | H]]]; discriminate H.
Qed.

(** The id of a new persona resolves neither in the built-in personas nor
    in [Object.prototype]. *)
Lemma custom_id_undefined (now : N) :
  get defaultPersonas ("custom-" +:+ pretty now) = undefined.
Proof.
  apply get_undefined. split; [apply custom_id_fresh |].
  unfold Object_prototype. rewrite !not_elem_of_cons.
  repeat split; try (intros H; discriminate H). apply not_elem_of_nil.
Qed.

(** No built-in id names a property of [Object.prototype]. *)
Lemma defaultPersonas_plain k : k ∈ Object_prototype → defaultPersonas !! k = None.
Proof.
  unfold Object_prototype. rewrite !elem_of_cons, elem_of_nil. intros Hk.
  repeat (destruct Hk as [-> | Hk]; [reflexivity |]). done.
Qed.

Lemma builtin_truthy k p :
  defaultPersonas !! k = Some p → truthy_property (get defaultPersonas k) = true.
Proof. intros Hk. apply truthy_get. by eauto. Qed.

Lemma undefined_not_builtin k : get defaultPersonas k = undefined → defaultPersonas !! k = None.
Proof. by intros [Hk _]%get_undefined. Qed.

Lemma custom_entries_lookup m k p :
  UsePersonas.custom_entries m !! k = Some p ↔
  m !! k = Some p ∧ get defaultPersonas k = undefined.
Proof.
  unfold UsePersonas.custom_entries. rewrite map_lookup_filter_Some. cbn.
  by rewrite falsy_get.
Qed.

(** [deletePersona] does something only for an id that resolves neither in
    the built-in personas nor in [Object.prototype]. *)
Lemma deletePersona_guarded k w (h : UsePersonas.State) :
  truthy_property (get defaultPersonas k) = true → UsePersonas.deletePersona k w h = h.
Proof. intros Hk. unfold UsePersonas.deletePersona. by rewrite Hk. Qed.

Lemma deletePersona_custom k w (h : UsePersonas.State) :
  get defaultPersonas k = undefined →
  UsePersonas.deletePersona k w h
  = {| UsePersonas.personas := delete k (UsePersonas.personas h);
       UsePersonas.stored :=
         UsePersonas.setItem w
           (UsePersonas.custom_entries (delete k (UsePersonas.personas h)))
           (UsePersonas.stored h) |}.
Proof. intros Hk. unfold UsePersonas.deletePersona. by rewrite Hk. Qed.

(** A save under an id that is not built in, and any delete, leave the
    built-in entries alone. *)
Definition harmless (c : UsePersonas.Call) : Prop :=
  match c with
  | UsePersonas.Save persona _ => defaultPersonas !! id persona = None
  | UsePersonas.Delete _ _ => True
  end.

Lemma call_harmless c (st : UsePersonas.State) k :
  harmless c → is_Some (defaultPersonas !! k) →
  UsePersonas.personas (UsePersonas.call st c) !! k = UsePersonas.personas st !! k.
Proof.
  intros Hc [p Hk]. destruct c as [persona w | id' w]; simpl in *.
  - apply lookup_insert_ne. congruence.
  - unfold UsePersonas.deletePersona.
    destruct (truthy_property (get defaultPersonas id')) eqn:Hid; [done |].
    apply falsy_get, undefined_not_builtin in Hid.
    simpl. apply lookup_delete_ne. congruence.
Qed.

Lemma calls_harmless cs (st : UsePersonas.State) k :
  Forall harmless cs → is_Some (defaultPersonas !! k) →
  UsePersonas.personas (UsePersonas.calls cs st) !! k = UsePersonas.personas st !! k.
Proof.
  intros Hcs Hk. revert st.
  induction Hcs as [| c cs Hc _ IH]; intros st; [done |].
  unfold UsePersonas.calls in *. simpl. rewrite IH. by apply call_harmless.
Qed.

(** What the stored item holds when the application wrote it: custom
    personas only, each under its own id. *)
Definition stored_ok (stored : option (gmap string Persona)) : Prop :=
  ∀ customPersonas, stored = Some customPersonas →
    ∀ k p, customPersonas !! k = Some p → id p = k ∧ defaultPersonas !! k = None.

(** The invariant of the registry: every persona sits under its own id,
    the built-in entries are the constants, and the stored item holds
    custom personas only. *)
Record registry_ok (h : UsePersonas.State) : Prop := {
  keyed : ∀ k p, UsePersonas.personas h !! k = Some p → id p = k;
  builtin : ∀ k p, defaultPersonas !! k = Some p → UsePersonas.personas h !! k = Some p;
  stored_custom : stored_ok (UsePersonas.stored h)
}.

Lemma initial_ok stored : stored_ok stored → registry_ok (UsePersonas.initial stored).
Proof.
  intros Hs. split; simpl; try done.
  intros k p. apply defaultPersonas_id.
Qed.

Lemma setItem_ok w m old :
  (∀ k p, m !! k = Some p → id p = k) →
  stored_ok old → stored_ok (UsePersonas.setItem w (UsePersonas.custom_entries m) old).
Proof.
  intros Hm Hold. destruct w; simpl; [| done].
  intros c [= <-] k p [Hk Hd]%custom_entries_lookup.
  split; [by apply Hm | by apply undefined_not_builtin].
Qed.

Lemma load_ok h : registry_ok h → registry_ok (UsePersonas.load h).
Proof.
  intros Hok. unfold UsePersonas.load.
  destruct (UsePersonas.stored h) as [custom |] eqn:Hstored; [| done].
  destruct Hok as [Hkey Hbuilt Hst]. rewrite Hstored in Hst.
  split; simpl; [| | done].
  - intros k p [Hc | [_ Hd]]%lookup_union_Some_raw.
    + by apply (Hst custom eq_refl k p).
    + by apply defaultPersonas_id.
  - intros k p Hd. apply lookup_union_Some_raw. right. split; [| done].
    destruct (custom !! k) as [q |] eqn:Hq; [| done].
    destruct (Hst custom eq_refl k q Hq) as [_ Hnone]. congruence.
Qed.

Lemma savePersona_ok persona w h :
  registry_ok h → defaultPersonas !! id persona = None →
  registry_ok (UsePersonas.savePersona persona w h).
Proof.
  intros [Hkey Hbuilt Hst] Hfresh.
  assert (Hkey' : ∀ k p,
             <[id persona := persona]> (UsePersonas.personas h) !! k = Some p → id p = k).
  { intros k p. rewrite lookup_insert. case_decide; [by intros [= <-] | apply Hkey]. }
  split; simpl; [done | | by apply setItem_ok].
  intros k p Hd. rewrite lookup_insert_ne by congruence. by apply Hbuilt.
Qed.

Lemma deletePersona_ok k w h : registry_ok h → registry_ok (UsePersonas.deletePersona k w h).
Proof.
  intros Hok. unfold UsePersonas.deletePersona.
  destruct (truthy_property (get defaultPersonas k)) eqn:Hk; [done |].
  apply falsy_get, undefined_not_builtin in Hk.
  destruct Hok as [Hkey Hbuilt Hst].
  assert (Hkey' : ∀ j p, delete k (UsePersonas.personas h) !! j = Some p → id p = j).
  { intros j p [_ Hj]%lookup_delete_Some. by apply Hkey. }
  split; simpl; [done | | by apply setItem_ok].
  intros j p Hd. rewrite lookup_delete_ne by congruence. by apply Hbuilt.
Qed.

(** The invariant of the persona controls: the registry's, and the
    persona being edited is a custom one. *)
Definition consistent (st : PersonaPanel.State) : Prop :=
  registry_ok (PersonaPanel.hook st) ∧
  ∀ e, PersonaPanel.editingPersona st = Some e → defaultPersonas !! id e = None.

Lemma initial_consistent stored saved :
  stored_ok stored → consistent (PersonaPanel.initial stored saved).
Proof. intros Hs. split; [by apply initial_ok | done]. Qed.

(** A custom selection resolves neither in the built-in personas nor in
    [Object.prototype]. *)
Lemma isCustomPersona_undefined (st : PersonaPanel.State) :
  PersonaPanel.isCustomPersona st = true →
  get defaultPersonas (PersonaPanel.selectedPersonaId st) = undefined.
Proof.
  unfold PersonaPanel.isCustomPersona.
  by intros [_ Hn%negb_true_iff%falsy_get]%andb_true_iff.
Qed.

Lemma isCustomPersona_spec (st : PersonaPanel.State) :
  PersonaPanel.isCustomPersona st = true →
  defaultPersonas !! PersonaPanel.selectedPersonaId st = None.
Proof. intros Hcustom. by apply undefined_not_builtin, isCustomPersona_undefined. Qed.

(** What [handleOpenEditModal] finds under a custom selection is a persona
    or nothing, never a property of [Object.prototype]. *)
Lemma isCustomPersona_own (st : PersonaPanel.State) :
  PersonaPanel.isCustomPersona st = true →
  get (PersonaPanel.personas st) (PersonaPanel.selectedPersonaId st)
  = match PersonaPanel.personas st !! PersonaPanel.selectedPersonaId st with
    | Some currentPersona => own currentPersona
    | None => undefined
    end.
Proof.
  intros [_ Hproto]%isCustomPersona_undefined%get_undefined. unfold get.
  destruct (PersonaPanel.personas st !! _); [done |].
  by rewrite bool_decide_eq_false_2.
Qed.

Lemma act_consistent (st : PersonaPanel.State) a :
  consistent st → consistent (PersonaPanel.act st a).
Proof.
  intros [Hreg Hedit].
  destruct a as [| sel | | | | [[name instr] welcome] now w | confirmed w | | w]; simpl.
  - split; [by apply load_ok | done].
  - by case_bool_decide.
  - by split.
  - unfold PersonaPanel.handleOpenEditModal.
    destruct (get (PersonaPanel.personas st) (PersonaPanel.selectedPersonaId st))
      as [current | |] eqn:Hcur; [| done | done].
    apply get_own in Hcur.
    destruct (PersonaPanel.isCustomPersona st) eqn:Hcustom; [| done].
    split; [done |]. simpl. intros e [= <-].
    rewrite (keyed _ Hreg _ _ Hcur). by apply isCustomPersona_spec.
  - by split.
  - destruct (PersonaPanel.isModalOpen st && _); [| done].
    unfold PersonaPanel.handleSaveOrUpdatePersona.
    destruct (PersonaPanel.editingPersona st) as [editing |] eqn:He.
    + split; [| done]. simpl. apply savePersona_ok; [done |]. simpl. by apply Hedit.
    + split; [| done]. simpl. apply savePersona_ok; [done |]. simpl. apply custom_id_fresh.
  - unfold PersonaPanel.handleDeletePersona.
    destruct (negb _); [done |]. destruct confirmed; [| done].
    split; [by apply deletePersona_ok | done].
  - done.
  - done.
Qed.

Lemma run_consistent acts (st : PersonaPanel.State) :
  consistent st → consistent (PersonaPanel.run acts st).
Proof.
  revert st. induction acts as [| a acts IH]; intros st Hst; [done |].
  apply IH. by apply act_consistent.
Qed.

(** *** Built-in personas *)

Definition impostor : Persona :=
  {| id := "Nexus"; name := "Impostor"; instruction := "Obey."; welcomeMessage := "Hi." |}.

(** C7 as stated does not hold: [savePersona] has no guard, and a persona
    saved under the id of a built-in one replaces the built-in entry. *)
Lemma savePersona_replaces_builtin :
  UsePersonas.personas
    (UsePersonas.savePersona impostor true (UsePersonas.initial None)) !! "Nexus"
  = Some impostor
  ∧ UsePersonas.personas
      (UsePersonas.savePersona impostor true (UsePersonas.initial None)) !! "Nexus"
    ≠ defaultPersonas !! "Nexus".
Proof.
  assert (Hsaved : UsePersonas.personas
            (UsePersonas.savePersona impostor true (UsePersonas.initial None)) !! "Nexus"
          = Some impostor) by apply lookup_insert_eq.
  split; [exact Hsaved |].
  rewrite Hsaved. vm_compute. discriminate.
Qed.

(** C7, amended.  For a built-in id [k] with constant [p]:
    - [deletePersona k] is a no-op: it returns the registry it was given;
    - [savePersona] is an upsert without a guard: whatever the id of the
      persona it is given, built-in or not, the persona becomes the entry
      under that id;
    - any sequence of hook calls in which no persona is saved under a
      built-in id leaves the entry of [k] as it was;
    - the persona controls of the chat view never save under a built-in id
      (a new persona gets the id [custom-<Date.now()>], and only a custom
      persona can be opened for editing, which is saved under its [id]
      field); so, when the stored item they start from holds personas
      under their own ids only and none under a built-in id, which is so
      of every item the application writes, then after any sequence of
      actions on them, from the initial state, the entry of [k] is [p]. *)
Theorem builtin_personas_survive
    (k : string) (p : Persona)
    (cs : list UsePersonas.Call) (h : UsePersonas.State)
    (acts : list PersonaPanel.Action)
    (stored : option (gmap string Persona)) (saved : option string) :
  defaultPersonas !! k = Some p →
  Forall harmless cs →
  stored_ok stored →
  (∀ succeeds h', UsePersonas.deletePersona k succeeds h' = h')
  ∧ (∀ persona succeeds h',
       UsePersonas.personas (UsePersonas.savePersona persona succeeds h') !! id persona
       = Some persona)
  ∧ UsePersonas.personas (UsePersonas.calls cs h) !! k = UsePersonas.personas h !! k
  ∧ PersonaPanel.personas (PersonaPanel.run acts (PersonaPanel.initial stored saved)) !! k
    = Some p.
Proof.
  intros Hk Hcs Hstored. split; [| split; [| split]].
  - intros succeeds h'. by apply deletePersona_guarded, (builtin_truthy k p).
  - intros persona succeeds h'. apply lookup_insert_eq.
  - by apply calls_harmless.
  - pose proof (run_consistent acts _ (initial_consistent stored saved Hstored)) as [Hreg _].
    by apply (builtin _ Hreg).
Qed.

Definition robot : Persona :=
  {| id := "custom-1700000000000"; name := "Robot";
     instruction := "You are a sarcastic robot."; welcomeMessage := "Oh, great." |}.

Definition sample_calls : list UsePersonas.Call :=
  [UsePersonas.Save robot true; UsePersonas.Delete "Nexus" true;
   UsePersonas.Delete "custom-1700000000000" false].

Definition sample_actions : list PersonaPanel.Action :=
  [PersonaPanel.Mount; PersonaPanel.OpenCreate;
   PersonaPanel.SaveModal ("Robot", "You are a sarcastic robot.", "Oh, great.")
     1700000000000%N true;
   PersonaPanel.RunEffects; PersonaPanel.Persist true; PersonaPanel.OpenEdit;
   PersonaPanel.SaveModal ("Nexus", "Obey.", "Hi.") 1700000000001%N true;
   PersonaPanel.Select "Nexus"; PersonaPanel.OpenEdit;
   PersonaPanel.DeleteSelected true true;
   PersonaPanel.Select "custom-1700000000000";
   PersonaPanel.DeleteSelected true true; PersonaPanel.RunEffects].

Lemma builtin_personas_survive_witness :
  (∀ succeeds h', UsePersonas.deletePersona "Nexus" succeeds h' = h')
  ∧ (∀ persona succeeds h',
       UsePersonas.personas (UsePersonas.savePersona persona succeeds h') !! id persona
       = Some persona)
  ∧ UsePersonas.personas (UsePersonas.calls sample_calls (UsePersonas.initial None)) !! "Nexus"
    = UsePersonas.personas (UsePersonas.initial None) !! "Nexus"
  ∧ PersonaPanel.personas
      (PersonaPanel.run sample_actions (PersonaPanel.initial None None)) !! "Nexus"
    = Some Nexus.
Proof.
  apply (builtin_personas_survive "Nexus" Nexus sample_calls (UsePersonas.initial None)
           sample_actions None None).
  - reflexivity.
  - repeat constructor.
  - intros customPersonas Hnone. discriminate Hnone.
Defined.

(** The condition on the stored item is needed.  A stored item that holds,
    under the key [custom-1], a persona whose [id] field is ['Nexus'], lets
    that persona be opened for editing (the key is custom), and saving it
    writes under its [id] field. *)
Definition miskeyed : gmap string Persona := <["custom-1" := impostor]> ∅.

Definition miskeyed_actions : list PersonaPanel.Action :=
  [PersonaPanel.Mount; PersonaPanel.RunEffects; PersonaPanel.OpenEdit;
   PersonaPanel.SaveModal ("Impostor", "Obey.", "Hi.") 1700000000000%N true].

Example miskeyed_store :
  PersonaPanel.personas
    (PersonaPanel.run miskeyed_actions (PersonaPanel.initial (Some miskeyed) (Some "custom-1")))
    !! "Nexus"
  = Some impostor.
Proof. reflexivity. Qed.

(** *** The selected persona *)

(** A session from an empty store.  The component mounts and stores its
    selection; the robot persona is created, selected and stored as the
    selection, then deleted; from then on the writes of the selection fail
    (the store is full, say); the effects fall back to ['Professional'],
    and the user selects Nexus. *)
Definition stale_actions : list PersonaPanel.Action :=
  [PersonaPanel.Mount; PersonaPanel.RunEffects; PersonaPanel.Persist true;
   PersonaPanel.OpenCreate;
   PersonaPanel.SaveModal ("Robot", "You are a sarcastic robot.", "Oh, great.")
     1700000000000%N true;
   PersonaPanel.RunEffects; PersonaPanel.Persist true;
   PersonaPanel.Select "custom-1700000000000"; PersonaPanel.Persist true;
   PersonaPanel.DeleteSelected true true; PersonaPanel.RunEffects;
   PersonaPanel.Persist false;
   PersonaPanel.Select "Nexus"; PersonaPanel.Persist false].

Definition nexus_in_use : PersonaPanel.State :=
  PersonaPanel.run stale_actions (PersonaPanel.initial None None).

(** C8 as stated does not hold: the persisted id does not decide which
    persona is in use.  Here it is the id of a deleted persona, no key of
    the persona map, while the persona in use is Nexus, and stays so when
    the effects run. *)
Lemma persisted_id_does_not_decide :
  PersonaPanel.savedSelectedPersonaId nexus_in_use = Some "custom-1700000000000"
  ∧ PersonaPanel.personas nexus_in_use !! "custom-1700000000000" = None
  ∧ PersonaPanel.selectedPersonaId nexus_in_use = "Nexus"
  ∧ PersonaPanel.personaConfig nexus_in_use = own Nexus
  ∧ PersonaPanel.personaConfig nexus_in_use ≠ own Professional
  ∧ PersonaPanel.selectedPersonaId (PersonaPanel.effects nexus_in_use) = "Nexus".
Proof.
  assert (Hconfig : PersonaPanel.personaConfig nexus_in_use = own Nexus) by reflexivity.
  repeat split; try reflexivity. rewrite Hconfig. intros H. discriminate H.
Qed.

(** C8, amended.  Let the persisted selected-persona id not resolve in the
    persona map: it is no key of the map (and does not name a property of
    [Object.prototype]).  Let it be the id that is selected, as it is
    when the last write of the selection has succeeded, or let the
    selection be the initial ['Professional'], as it is when the component
    has just mounted.  Then the restore effect does not adopt the persisted
    id, the persona in use, [personaConfig], is the entry of
    ['Professional'], and the effects set the selected id to
    ['Professional']. *)
Theorem persona_fallback (st : PersonaPanel.State) (persisted : string) :
  PersonaPanel.savedSelectedPersonaId st = Some persisted →
  get (PersonaPanel.personas st) persisted = undefined →
  PersonaPanel.selectedPersonaId st = persisted
  ∨ PersonaPanel.selectedPersonaId st = "Professional" →
  PersonaPanel.restored st = PersonaPanel.selectedPersonaId st
  ∧ PersonaPanel.personaConfig st = get (PersonaPanel.personas st) "Professional"
  ∧ PersonaPanel.selectedPersonaId (PersonaPanel.effects st) = "Professional"
  ∧ PersonaPanel.personaConfig (PersonaPanel.effects st)
    = get (PersonaPanel.personas st) "Professional".
Proof.
  intros Hsaved Hgone Hsel.
  assert (Hrestored : PersonaPanel.restored st = PersonaPanel.selectedPersonaId st).
  { unfold PersonaPanel.restored. rewrite Hsaved, Hgone. cbn. by rewrite andb_false_r. }
  assert (Hnow : PersonaPanel.selectedPersonaId (PersonaPanel.effects st) = "Professional").
  { unfold PersonaPanel.effects, PersonaPanel.setSelectedPersonaId.
    cbn [PersonaPanel.selectedPersonaId]. rewrite Hrestored.
    destruct Hsel as [Heq | Heq]; rewrite Heq; [by rewrite Hgone |].
    by destruct (truthy_property _). }
  assert (Hprofessional : ∀ personas : gmap string Persona,
            match get personas "Professional" with
            | undefined => get personas "Professional"
            | found => found
            end = get personas "Professional").
  { intros personas. by destruct (get personas "Professional"). }
  split; [done |]. split; [| split; [done |]].
  - unfold PersonaPanel.personaConfig.
    destruct Hsel as [Heq | Heq]; rewrite Heq; [by rewrite Hgone | apply Hprofessional].
  - unfold PersonaPanel.personaConfig. rewrite Hnow.
    change (PersonaPanel.personas (PersonaPanel.effects st)) with (PersonaPanel.personas st).
    apply Hprofessional.
Qed.

(** The persona ["custom-1700000000000"] was selected, stored as the
    selection, and then deleted. *)
Definition after_deletion : PersonaPanel.State :=
  {| PersonaPanel.hook := UsePersonas.initial None;
     PersonaPanel.selectedPersonaId := "custom-1700000000000";
     PersonaPanel.isModalOpen := false;
     PersonaPanel.editingPersona := None;
     PersonaPanel.savedSelectedPersonaId := Some "custom-1700000000000" |}.

Lemma persona_fallback_witness :
  PersonaPanel.restored after_deletion = "custom-1700000000000"
  ∧ PersonaPanel.personaConfig after_deletion = own Professional
  ∧ PersonaPanel.selectedPersonaId (PersonaPanel.effects after_deletion) = "Professional"
  ∧ PersonaPanel.personaConfig (PersonaPanel.effects after_deletion) = own Professional.
Proof.
  apply (persona_fallback after_deletion "custom-1700000000000").
  - reflexivity.
  - reflexivity.
  - left. reflexivity.
Defined.

(** What the lookups of the source make of an id that names a property of
    [Object.prototype]: a persisted ['constructor'] is no key of the
    persona map, yet [personas[saved]] is truthy; the restore effect adopts
    it, the fallback effect does not replace it, and [personaConfig] is
    that property, not a persona. *)
Definition constructor_persisted : PersonaPanel.State :=
  PersonaPanel.run [PersonaPanel.Mount; PersonaPanel.RunEffects]
    (PersonaPanel.initial None (Some "constructor")).

Example inherited_name_is_restored :
  PersonaPanel.personas constructor_persisted !! "constructor" = None
  ∧ PersonaPanel.selectedPersonaId constructor_persisted = "constructor"
  ∧ PersonaPanel.personaConfig constructor_persisted = inherited "constructor"
  ∧ PersonaPanel.isCustomPersona constructor_persisted = false
  ∧ PersonaPanel.effects constructor_persisted = constructor_persisted.
Proof. repeat split; reflexivity. Qed.

(** The names of the properties of [Object.prototype] are not empty. *)
Lemma inherited_truthy k : k ∈ Object_prototype → truthy k = true.
Proof.
  unfold Object_prototype. rewrite !elem_of_cons, elem_of_nil. intros Hk.
  repeat (destruct Hk as [-> | Hk]; [reflexivity |]). done.
Qed.

Lemma inherited_found {A} (obj : gmap string A) k :
  k ∈ Object_prototype → truthy_property (get obj k) = true.
Proof. intros Hk. apply truthy_get. by right. Qed.

End Registry.

(** ** The history of the image views *)

Section History.

Import Js.

(** Both views keep their history with
    [[newHistoryItem, ...history].slice(0, 20)]. *)
Definition push {A} (history : list A) (newHistoryItem : A) : list A :=
  slice0 20 (newHistoryItem :: history).

Lemma take_app_take {A} (n : nat) (xs ys : list A) :
  take n (xs ++ take n ys) = take n (xs ++ ys).
Proof.
  rewrite !take_app. f_equal.
  rewrite take_take. f_equal. lia.
Qed.

Lemma pushes {A} (x : A) (xs h : list A) :
  fold_left push (x :: xs) h = take 20 (rev (x :: xs) ++ h).
Proof.
  revert x h. induction xs as [| y xs IH]; intros x h.
  - change (push h x = take 20 (x :: h)). apply slice0_20.
  - change (fold_left push (x :: y :: xs) h) with (fold_left push (y :: xs) (push h x)).
    rewrite IH. unfold push at 1. rewrite slice0_20, take_app_take.
    change (rev (x :: y :: xs)) with (rev (y :: xs) ++ [x]).
    by rewrite <- app_assoc.
Qed.

Lemma pushes_length {A} (x : A) (xs h : list A) :
  length (fold_left push (x :: xs) h) ≤ 20.
Proof. rewrite pushes, length_take. lia. Qed.

(** After more than 20 pushes nothing of the initial history is left. *)
Lemma pushes_full {A} (xs h : list A) :
  20 ≤ length xs → fold_left push xs h = take 20 (rev xs).
Proof.
  intros Hlen. destruct xs as [| x xs]; [simpl in Hlen; lia |].
  rewrite pushes, take_app_le; [done |]. rewrite length_rev. done.
Qed.

(** *** ImageGenerator *)

Definition generations (gs : list ImageGenerator.Generation) (st : ImageGenerator.State)
  : ImageGenerator.State :=
  fold_left ImageGenerator.generate gs st.

Definition prompted (g : ImageGenerator.Generation) : Prop :=
  truthy (ImageGenerator.g_prompt g) = true.

Lemma generate_pushes st g :
  prompted g →
  ImageGenerator.history (ImageGenerator.generate st g)
  = push (ImageGenerator.history st) (ImageGenerator.record_of g)
  ∧ ImageGenerator.stored (ImageGenerator.generate st g)
    = Some (ImageGenerator.history (ImageGenerator.generate st g)).
Proof.
  unfold prompted, ImageGenerator.generate, ImageGenerator.handleGenerate.
  cbn [ImageGenerator.edit ImageGenerator.prompt ImageGenerator.aspectRatio
       ImageGenerator.history GeminiService.generateImage].
  intros ->. simpl. done.
Qed.

Lemma generations_history gs st :
  Forall prompted gs →
  ImageGenerator.history (generations gs st)
  = fold_left push (map ImageGenerator.record_of gs) (ImageGenerator.history st).
Proof.
  intros Hgs. revert st. induction Hgs as [| g gs Hg _ IH]; intros st; [done |].
  unfold generations in *. simpl. rewrite IH.
  by destruct (generate_pushes st g Hg) as [-> _].
Qed.

Lemma generations_stored gs st :
  Forall prompted gs → gs ≠ [] →
  ImageGenerator.stored (generations gs st)
  = Some (ImageGenerator.history (generations gs st)).
Proof.
  intros Hgs Hne. destruct gs as [| g gs _] using rev_ind; [done |].
  unfold generations. rewrite fold_left_app. simpl.
  apply generate_pushes. apply Forall_app in Hgs as [_ Hg]. by inversion Hg.
Qed.

(** *** ImageEditor *)

Definition edits (es : list ImageEditor.Edit) (st : ImageEditor.State) : ImageEditor.State :=
  fold_left ImageEditor.perform es st.

Definition edited (e : ImageEditor.Edit) : Prop := ImageEditor.succeeds e = true.

Lemma perform_pushes st e :
  edited e →
  ImageEditor.history (ImageEditor.perform st e)
  = push (ImageEditor.history st) (ImageEditor.record_of e)
  ∧ ImageEditor.stored (ImageEditor.perform st e)
    = Some (ImageEditor.history (ImageEditor.perform st e)).
Proof.
  unfold edited, ImageEditor.succeeds.
  intros [[Hp Ho]%andb_true_iff Hi]%andb_true_iff.
  unfold ImageEditor.perform, ImageEditor.handleGenerate, ImageEditor.record_of.
  cbn [ImageEditor.edit ImageEditor.prompt ImageEditor.originalImage
       ImageEditor.history GeminiService.editImage].
  rewrite Hp, Ho. cbn [negb].
  destruct (GeminiService.edit_parts (ImageEditor.e_parts e)) as [imageUrl text].
  cbn [fst] in Hi |- *. rewrite Hi. simpl. done.
Qed.

Lemma edits_history es st :
  Forall edited es →
  ImageEditor.history (edits es st)
  = fold_left push (map ImageEditor.record_of es) (ImageEditor.history st).
Proof.
  intros Hes. revert st. induction Hes as [| e es He _ IH]; intros st; [done |].
  unfold edits in *. simpl. rewrite IH.
  by destruct (perform_pushes st e He) as [-> _].
Qed.

Lemma edits_stored es st :
  Forall edited es → es ≠ [] →
  ImageEditor.stored (edits es st) = Some (ImageEditor.history (edits es st)).
Proof.
  intros Hes Hne. destruct es as [| e es _] using rev_ind; [done |].
  unfold edits. rewrite fold_left_app. simpl.
  apply perform_pushes. apply Forall_app in Hes as [_ He]. by inversion He.
Qed.

(** *** The cap *)

(** C3.  After more than 20 successful image generations (and likewise
    image edits), whatever the history was before:
    - after each of them the stored history has at most 20 records;
    - at the end it holds exactly the records of the last 20, the newest
      first: older records were evicted. *)
Theorem history_cap
    (gs : list ImageGenerator.Generation) (st : ImageGenerator.State)
    (es : list ImageEditor.Edit) (st' : ImageEditor.State) :
  Forall prompted gs → 20 < length gs →
  Forall edited es → 20 < length es →
  ((∀ n, 0 < n ≤ length gs →
      ∃ h, ImageGenerator.stored (generations (take n gs) st) = Some h ∧ length h ≤ 20)
   ∧ ImageGenerator.stored (generations gs st)
     = Some (map ImageGenerator.record_of (take 20 (rev gs))))
  ∧
  ((∀ n, 0 < n ≤ length es →
      ∃ h, ImageEditor.stored (edits (take n es) st') = Some h ∧ length h ≤ 20)
   ∧ ImageEditor.stored (edits es st')
     = Some (map ImageEditor.record_of (take 20 (rev es)))).
Proof.
  intros Hgs Hlen Hes Hlen'. split; split.
  - intros n [Hpos Hn].
    assert (Hne : take n gs ≠ []).
    { intros Hnil%(f_equal length). rewrite length_take in Hnil. simpl in Hnil. lia. }
    assert (Hpre : Forall prompted (take n gs)) by by apply Forall_take.
    eexists. split; [by apply generations_stored |].
    rewrite generations_history by done.
    destruct (take n gs) as [| g gs']; [done |]. apply (pushes_length (ImageGenerator.record_of g)).
  - assert (Hne : gs ≠ []) by (intros ->; simpl in Hlen; lia).
    rewrite generations_stored by done.
    rewrite generations_history by done.
    rewrite pushes_full by (rewrite length_map; lia).
    by rewrite <- map_rev, firstn_map.
  - intros n [Hpos Hn].
    assert (Hne : take n es ≠ []).
    { intros Hnil%(f_equal length). rewrite length_take in Hnil. simpl in Hnil. lia. }
    assert (Hpre : Forall edited (take n es)) by by apply Forall_take.
    eexists. split; [by apply edits_stored |].
    rewrite edits_history by done.
    destruct (take n es) as [| e es']; [done |]. apply (pushes_length (ImageEditor.record_of e)).
  - assert (Hne : es ≠ []) by (intros ->; simpl in Hlen'; lia).
    rewrite edits_stored by done.
    rewrite edits_history by done.
    rewrite pushes_full by (rewrite length_map; lia).
    by rewrite <- map_rev, firstn_map.
Qed.

(** Twenty-one generations of a cat, at times 1 to 21, and twenty-one
    edits of one picture, answered by a note and two images. *)
Definition sample_generations : list ImageGenerator.Generation :=
  map (λ n, {| ImageGenerator.g_prompt := "a cat";
               ImageGenerator.g_aspectRatio := ImageGenerator.Landscape;
               ImageGenerator.g_now := N.of_nat n;
               ImageGenerator.g_imageBytes := "QUJD";
               ImageGenerator.g_moreImages := [] |})
      (seq 1 21).

Definition sample_parts : list Types.MessagePart :=
  [Types.text_part "note";
   Types.inline_part {| Types.mimeType := "image/png"; Types.data := "QQ==" |};
   Types.inline_part {| Types.mimeType := "image/png"; Types.data := "Qg==" |}].

Definition sample_edits : list ImageEditor.Edit :=
  map (λ n, {| ImageEditor.e_prompt := "add a hat";
               ImageEditor.e_original := "data:image/png;base64,QUJD";
               ImageEditor.e_now := N.of_nat n;
               ImageEditor.e_parts := sample_parts;
               ImageEditor.e_moreCandidates := [] |})
      (seq 1 21).

Definition empty_generator : ImageGenerator.State :=
  {| ImageGenerator.prompt := ""; ImageGenerator.aspectRatio := ImageGenerator.Square;
     ImageGenerator.loading := false; ImageGenerator.error := None;
     ImageGenerator.imageUrl := None; ImageGenerator.history := [];
     ImageGenerator.stored := None |}.

Definition empty_editor : ImageEditor.State :=
  {| ImageEditor.originalImage := None; ImageEditor.prompt := "";
     ImageEditor.editedImage := None; ImageEditor.responseText := None;
     ImageEditor.loading := false; ImageEditor.error := None;
     ImageEditor.history := []; ImageEditor.stored := None |}.

Lemma history_cap_witness :
  ((∀ n, 0 < n ≤ length sample_generations →
      ∃ h, ImageGenerator.stored (generations (take n sample_generations) empty_generator)
           = Some h ∧ length h ≤ 20)
   ∧ ImageGenerator.stored (generations sample_generations empty_generator)
     = Some (map ImageGenerator.record_of (take 20 (rev sample_generations))))
  ∧
  ((∀ n, 0 < n ≤ length sample_edits →
      ∃ h, ImageEditor.stored (edits (take n sample_edits) empty_editor) = Some h
           ∧ length h ≤ 20)
   ∧ ImageEditor.stored (edits sample_edits empty_editor)
     = Some (map ImageEditor.record_of (take 20 (rev sample_edits)))).
Proof.
  apply (history_cap sample_generations empty_generator sample_edits empty_editor).
  - repeat constructor.
  - vm_compute. lia.
  - repeat constructor.
  - vm_compute. lia.
Defined.

(** The oldest of the twenty-one generations is gone, the newest is first. *)
Example newest_first_ids :
  option_map (map ImageGenerator.id)
    (ImageGenerator.stored (generations sample_generations empty_generator))
  = Some (map N.of_nat (rev (seq 2 20))).
Proof. vm_compute. reflexivity. Qed.

End History.

(** ** The answers of the service *)

Section Answers.

Import Js.

Lemma append_cons (c : ascii) (s t : string) : String c s +:+ t = String c (s +:+ t).
Proof. reflexivity. Qed.

Lemma append_assoc (s t u : string) : (s +:+ t) +:+ u = s +:+ (t +:+ u).
Proof. induction s as [| c s IH]; [done |]. by rewrite !append_cons, IH. Qed.

Lemma append_nil_r (s : string) : s +:+ "" = s.
Proof. induction s as [| c s IH]; [done |]. by rewrite append_cons, IH. Qed.

Lemma truthy_append_l (s t : string) : truthy s = true → truthy (s +:+ t) = true.
Proof. by destruct s. Qed.

(** *** editImage *)

(** The image reference made from an image-bearing part. *)
Definition dataUrl (d : Types.InlineData) : string :=
  "data:" +:+ Types.mimeType d +:+ ";base64," +:+ Types.data d.

(** The text of a part, if it has any. *)
Definition said (part : Types.MessagePart) : option string :=
  match Types.text part with
  | Some t => if truthy t then Some t else None
  | None => None
  end.

(** The parts but the first image-bearing one. *)
Fixpoint other_parts (parts : list Types.MessagePart) : list Types.MessagePart :=
  match parts with
  | [] => []
  | part :: parts' =>
      match Types.inlineData part with
      | Some _ => parts'
      | None => part :: other_parts parts'
      end
  end.

(** Texts in order, one per line; nothing when there is no text. *)
Definition accompanying (texts : list string) : option string :=
  match texts with
  | [] => None
  | _ :: _ => Some (String.concat LF texts)
  end.

Lemma concat_snoc (sep t : string) (ts : list string) :
  ts ≠ [] → String.concat sep (ts ++ [t]) = String.concat sep ts +:+ sep +:+ t.
Proof.
  induction ts as [| a ts IH]; [done |]. intros _.
  destruct ts as [| b ts]; [done |].
  change (String.concat sep ((a :: b :: ts) ++ [t]))
    with (a +:+ sep +:+ String.concat sep ((b :: ts) ++ [t])).
  rewrite IH by done.
  change (String.concat sep (a :: b :: ts)) with (a +:+ sep +:+ String.concat sep (b :: ts)).
  by rewrite !append_assoc.
Qed.

Lemma concat_truthy (sep : string) (ts : list string) :
  Forall (λ t, truthy t = true) ts → ts ≠ [] → truthy (String.concat sep ts) = true.
Proof.
  intros Hts Hne. destruct Hts as [| a ts Ha _]; [done |].
  destruct ts; [done |]. by apply truthy_append_l.
Qed.

(** One more text on the variable [text] of the loop. *)
Lemma accompanying_snoc (t : string) (ts : list string) :
  Forall (λ t, truthy t = true) ts →
  Some (match accompanying ts with
        | Some s => if truthy s then s +:+ LF else ""
        | None => ""
        end +:+ t)
  = accompanying (ts ++ [t]).
Proof.
  intros Hts. destruct ts as [| a ts]; [done |].
  unfold accompanying at 1. rewrite concat_truthy by done.
  change ((a :: ts) ++ [t]) with (a :: (ts ++ [t])).
  unfold accompanying. destruct (ts ++ [t]) eqn:Hsnoc; [by destruct ts |].
  rewrite <- Hsnoc. change (a :: ts ++ [t]) with ((a :: ts) ++ [t]).
  rewrite concat_snoc by done. by rewrite append_assoc.
Qed.

Lemma said_truthy (part : Types.MessagePart) (t : string) :
  said part = Some t → truthy t = true.
Proof.
  unfold said. destruct (Types.text part) as [s |]; [| done].
  destruct (truthy s) eqn:Hs; [| done]. by intros [= <-].
Qed.

(** A turn of the loop that does not take the part's image. *)
Lemma edit_part_text (imageUrl : option string) (ts : list string) (part : Types.MessagePart) :
  Forall (λ t, truthy t = true) ts →
  Types.inlineData part = None ∨ truthy_opt imageUrl = true →
  GeminiService.edit_part (imageUrl, accompanying ts) part
  = (imageUrl, accompanying (ts ++ option_list (said part))).
Proof.
  intros Hts Hskip. unfold GeminiService.edit_part.
  assert (Hsaid :
    match Types.text part with
    | Some t =>
        if truthy t
        then (imageUrl, Some (match accompanying ts with
                              | Some s => if truthy s then s +:+ LF else ""
                              | None => ""
                              end +:+ t))
        else (imageUrl, accompanying ts)
    | None => (imageUrl, accompanying ts)
    end = (imageUrl, accompanying (ts ++ option_list (said part)))).
  { unfold said. destruct (Types.text part) as [t |]; simpl; [| by rewrite app_nil_r].
    destruct (truthy t); simpl; [| by rewrite app_nil_r].
    by rewrite accompanying_snoc. }
  destruct Hskip as [-> | ->]; [done |]. by destruct (Types.inlineData part).
Qed.

Lemma said_cons (part : Types.MessagePart) (parts : list Types.MessagePart) :
  option_list (said part) ++ omap said parts = omap said (part :: parts).
Proof. simpl. by destruct (said part). Qed.

Lemma texts_truthy (ts : list string) (part : Types.MessagePart) :
  Forall (λ t, truthy t = true) ts →
  Forall (λ t, truthy t = true) (ts ++ option_list (said part)).
Proof.
  intros Hts. apply Forall_app. split; [done |].
  destruct (said part) as [t |] eqn:Ht; simpl; [| done].
  constructor; [by apply (said_truthy part) | done].
Qed.

(** Once an image is taken, the loop only collects texts. *)
Lemma edit_parts_after (parts : list Types.MessagePart) (u : string) (ts : list string) :
  truthy u = true → Forall (λ t, truthy t = true) ts →
  fold_left GeminiService.edit_part parts (Some u, accompanying ts)
  = (Some u, accompanying (ts ++ omap said parts)).
Proof.
  intros Hu. revert ts. induction parts as [| part parts IH]; intros ts Hts.
  - simpl. by rewrite app_nil_r.
  - cbn [fold_left]. rewrite edit_part_text by (done || by right).
    rewrite IH by by apply texts_truthy.
    by rewrite <- app_assoc, said_cons.
Qed.

(** Until then it collects texts and looks for the first image. *)
Lemma edit_parts_before (parts : list Types.MessagePart) (ts : list string) :
  Forall (λ t, truthy t = true) ts →
  fold_left GeminiService.edit_part parts (None, accompanying ts)
  = (dataUrl <$> head (omap Types.inlineData parts),
     accompanying (ts ++ omap said (other_parts parts))).
Proof.
  revert ts. induction parts as [| part parts IH]; intros ts Hts.
  - simpl. by rewrite app_nil_r.
  - cbn [fold_left other_parts omap list_omap].
    destruct (Types.inlineData part) as [d |] eqn:Hd.
    + replace (GeminiService.edit_part (None, accompanying ts) part)
        with (Some (dataUrl d), accompanying ts)
        by (unfold GeminiService.edit_part; by rewrite Hd).
      by rewrite edit_parts_after.
    + rewrite edit_part_text by (done || by left).
      rewrite IH by by apply texts_truthy.
      by rewrite <- app_assoc, said_cons.
Qed.

Lemma accompanying_truthy (ts : list string) (t : string) :
  Forall (λ t, truthy t = true) ts → accompanying ts = Some t → truthy t = true.
Proof.
  intros Hts. destruct ts as [| a ts]; [done |].
  unfold accompanying. intros Heq.
  assert (Ht : String.concat LF (a :: ts) = t) by congruence.
  rewrite <- Ht. by apply concat_truthy.
Qed.

Lemma texts_all_truthy (parts : list Types.MessagePart) :
  Forall (λ t, truthy t = true) (omap said parts).
Proof.
  induction parts as [| part parts IH]; [constructor |].
  rewrite <- said_cons. apply Forall_app. split; [| done].
  destruct (said part) as [t |] eqn:Ht; simpl; [| done].
  constructor; [by apply (said_truthy part) | done].
Qed.

(** C6.  Of the parts of the first candidate, the first image-bearing one
    gives the resulting image reference, and the texts of the other parts
    that have text are concatenated in order, separated by line feeds,
    into the accompanying text.  Without an image the call fails, with an
    error that quotes the text when there is text and with another one
    when there is none. *)
Theorem edit_tie_break
    (parts : list Types.MessagePart) (more : list (list Types.MessagePart)) :
  GeminiService.editImage (Fulfilled (Some (parts :: more)))
  = match head (omap Types.inlineData parts), accompanying (omap said (other_parts parts)) with
    | Some image, text =>
        Fulfilled {| GeminiService.imageUrl := Some (dataUrl image);
                     GeminiService.text := text |}
    | None, Some text =>
        Rejected (new_Error
          ("The model responded with text but no image: " +:+ DQUOTE +:+ text +:+ DQUOTE))
    | None, None =>
        Rejected (new_Error "No image was returned from the editing service.")
    end.
Proof.
  unfold GeminiService.editImage, GeminiService.edit_parts.
  change (@None string, @None string) with (@None string, accompanying []).
  rewrite edit_parts_before by constructor. rewrite app_nil_l.
  destruct (head (omap Types.inlineData parts)) as [image |]; [done |].
  simpl. destruct (accompanying (omap said (other_parts parts))) as [text |] eqn:Ht; [| done].
  by rewrite (accompanying_truthy _ _ (texts_all_truthy _) Ht).
Qed.

(** The answer [[text:"note", image:A, image:B]]: image A, text "note". *)
Example note_and_two_images :
  GeminiService.editImage (Fulfilled (Some [sample_parts]))
  = Fulfilled {| GeminiService.imageUrl := Some "data:image/png;base64,QQ==";
                 GeminiService.text := Some "note" |}.
Proof. reflexivity. Qed.

(** Two notes around the image come out on two lines. *)
Example two_notes_two_lines :
  GeminiService.editImage
    (Fulfilled (Some [[Types.text_part "one";
                       Types.inline_part {| Types.mimeType := "image/png"; Types.data := "QQ==" |};
                       Types.text_part "two"]]))
  = Fulfilled {| GeminiService.imageUrl := Some "data:image/png;base64,QQ==";
                 GeminiService.text := Some ("one" +:+ LF +:+ "two") |}.
Proof. reflexivity. Qed.

Example edit_refused :
  GeminiService.editImage (Fulfilled (Some [[Types.text_part "I cannot do that."]]))
  = Rejected (new_Error
      ("The model responded with text but no image: " +:+ DQUOTE +:+ "I cannot do that." +:+ DQUOTE)).
Proof. reflexivity. Qed.

Example edit_empty :
  GeminiService.editImage (Fulfilled (Some [[]]))
  = Rejected (new_Error "No image was returned from the editing service.").
Proof. reflexivity. Qed.

(** When a part is either a text or an image, as the spec's data model has
    it, the other parts' texts are the texts of all parts. *)
Lemma texts_of_tagged_parts (parts : list Types.MessagePart) :
  Forall (λ part, is_Some (Types.inlineData part) → Types.text part = None) parts →
  omap said (other_parts parts) = omap said parts.
Proof.
  induction 1 as [| part parts Hpart _ IH]; [done |].
  cbn [other_parts]. destruct (Types.inlineData part) as [d |] eqn:Hd.
  - rewrite <- said_cons. unfold said at 2. by rewrite Hpart.
  - by rewrite <- !said_cons, IH.
Qed.

(** *** generateVideo *)

Definition pending (operation : GeminiService.VideoOperation) : Prop :=
  GeminiService.done operation = false.

(** [n] turns of the loop: [n] times progress, sleep, poll. *)
Definition polls (n : nat) : list GeminiService.Event :=
  concat (replicate n GeminiService.one_poll).

(** The loop ends with a handle exactly when the handles seen, the first
    one and then the answers, are some pending ones followed by one that
    is done; the loop then made one turn per pending handle. *)
Lemma poll_finishes operation answers events final :
  GeminiService.poll operation answers = (events, Some (Fulfilled final)) ↔
  ∃ before rest,
    Fulfilled operation :: answers = map Fulfilled (before ++ [final]) ++ rest
    ∧ Forall pending before
    ∧ GeminiService.done final = true
    ∧ events = polls (length before).
Proof.
  split.
  - revert operation events.
    induction answers as [| answer answers IH]; intros operation events;
      cbn [GeminiService.poll]; destruct (GeminiService.done operation) eqn:Hdone.
    + intros [= <- <-]. by exists [], [].
    + done.
    + intros [= <- <-]. by exists [], (answer :: answers).
    + destruct answer as [operation' | e]; [| done].
      destruct (GeminiService.poll operation' answers) as [events' r] eqn:Hpoll.
      intros [= <- ->].
      destruct (IH _ _ Hpoll) as (before & rest & Hseen & Hbefore & Hfinal & ->).
      exists (operation :: before), rest. split; [| split; [| split]].
      * cbn [app map]. by rewrite <- Hseen.
      * by constructor.
      * done.
      * done.
  - intros (before & rest & Hseen & Hbefore & Hfinal & ->).
    revert operation answers Hseen.
    induction Hbefore as [| first before Hfirst _ IH]; intros operation answers Hseen.
    + injection Hseen as <- _. destruct answers; cbn [GeminiService.poll]; by rewrite Hfinal.
    + cbn [app map] in Hseen. injection Hseen as <- ->.
      destruct (before ++ [final]) as [| next seen] eqn:Hnext; [by destruct before |].
      cbn [app map GeminiService.poll]. rewrite Hfirst.
      rewrite (IH next (map Fulfilled seen ++ rest)) by done.
      done.
Qed.

(** The number of calls of [onProgress], and of status checks, among the
    events. *)
Definition progress_count (events : list GeminiService.Event) : nat :=
  length (List.filter (λ e, match e with GeminiService.OnProgress => true | _ => false end)
            events).

Definition check_count (events : list GeminiService.Event) : nat :=
  length (List.filter (λ e, match e with GeminiService.GetVideosOperation => true | _ => false end)
            events).

Definition sleeps (events : list GeminiService.Event) : list Z :=
  omap (λ e, match e with GeminiService.SetTimeout ms => Some ms | _ => None end) events.

Lemma polls_counts (n : nat) (url : string) :
  progress_count (polls n ++ [GeminiService.Fetch url]) = n
  ∧ check_count (polls n ++ [GeminiService.Fetch url]) = n
  ∧ sleeps (polls n ++ [GeminiService.Fetch url]) = replicate n 10000%Z.
Proof.
  unfold progress_count, check_count, sleeps.
  induction n as [| n (IHp & IHc & IHs)]; [done |].
  unfold polls in *. cbn [replicate concat].
  rewrite <- !app_assoc. cbn [GeminiService.one_poll app List.filter omap list_omap length].
  by rewrite IHp, IHc, IHs.
Qed.

(** C4.  [generateVideo] resolves, with the object URL of the fetched
    video, exactly when the operation handles it sees (the one the request
    returns, then the answers to its status checks) are some handles that
    are not done followed by one with [done = true] that carries a download
    link which can be fetched.  For each handle that is not done it calls
    [onProgress] once, sleeps 10000 ms and checks the status once; so
    [onProgress] is called once per poll before the resolving check, and
    not at all when the first handle is done ([before] is then empty). *)
Theorem poll_termination
    (API_KEY : string) (started : Settled GeminiService.VideoOperation)
    (answers : list (Settled GeminiService.VideoOperation))
    (fetch : string → Settled GeminiService.FetchResponse)
    (events : list GeminiService.Event) (url : string) :
  GeminiService.generateVideo API_KEY started answers fetch
  = (events, Some (Fulfilled url))
  ↔
  ∃ before final rest link response,
    started :: answers = map Fulfilled (before ++ [final]) ++ rest
    ∧ Forall pending before
    ∧ GeminiService.done final = true
    ∧ GeminiService.uri final = Some link ∧ truthy link = true
    ∧ fetch (link +:+ "&key=" +:+ API_KEY) = Fulfilled response
    ∧ GeminiService.ok response = true
    ∧ url = GeminiService.objectURL response
    ∧ events = polls (length before)
               ++ [GeminiService.Fetch (link +:+ "&key=" +:+ API_KEY)]
    ∧ progress_count events = length before
    ∧ check_count events = length before
    ∧ sleeps events = replicate (length before) 10000%Z.
Proof.
  unfold GeminiService.generateVideo. split.
  - destruct started as [operation | e]; [| done].
    destruct (GeminiService.poll operation answers) as [events' [[final | e] |]] eqn:Hpoll;
      [| done | done].
    apply poll_finishes in Hpoll as (before & rest & Hseen & Hbefore & Hfinal & ->).
    destruct (GeminiService.uri final) as [link |] eqn:Hlink; [| done].
    destruct (truthy link) eqn:Htruthy; [| done].
    destruct (fetch _) as [response | e] eqn:Hfetch; [| done].
    destruct (GeminiService.ok response) eqn:Hok; [| done].
    intros [= <- <-]. exists before, final, rest, link, response.
    pose proof (polls_counts (length before) (link +:+ "&key=" +:+ API_KEY)) as (? & ? & ?).
    by repeat split.
  - intros (before & final & rest & link & response
            & Hseen & Hbefore & Hfinal & Hlink & Htruthy & Hfetch & Hok & -> & -> & _).
    destruct started as [operation | e]; [| by destruct before].
    assert (Hpoll : GeminiService.poll operation answers
                    = (polls (length before), Some (Fulfilled final))).
    { apply poll_finishes. by exists before, rest. }
    by rewrite Hpoll, Hlink, Htruthy, Hfetch, Hok.
Qed.

(** Two status checks before the video is done; and a request that is
    done at once. *)
Definition in_progress : GeminiService.VideoOperation :=
  {| GeminiService.done := false; GeminiService.uri := None |}.

Definition completed : GeminiService.VideoOperation :=
  {| GeminiService.done := true; GeminiService.uri := Some "https://videos/1?alt=media" |}.

Definition download (url : string) : Settled GeminiService.FetchResponse :=
  Fulfilled {| GeminiService.ok := true; GeminiService.statusText := "OK";
               GeminiService.objectURL := "blob:1" |}.

Example generateVideo_two_polls :
  GeminiService.generateVideo "KEY" (Fulfilled in_progress)
    [Fulfilled in_progress; Fulfilled completed] download
  = ([GeminiService.OnProgress; GeminiService.SetTimeout 10000; GeminiService.GetVideosOperation;
      GeminiService.OnProgress; GeminiService.SetTimeout 10000; GeminiService.GetVideosOperation;
      GeminiService.Fetch "https://videos/1?alt=media&key=KEY"],
     Some (Fulfilled "blob:1")).
Proof. reflexivity. Qed.

Example generateVideo_done_at_once :
  GeminiService.generateVideo "KEY" (Fulfilled completed) [] download
  = ([GeminiService.Fetch "https://videos/1?alt=media&key=KEY"], Some (Fulfilled "blob:1")).
Proof. reflexivity. Qed.

(** While every answer says "not done" the function does not resolve. *)
Example generateVideo_still_waiting :
  snd (GeminiService.generateVideo "KEY" (Fulfilled in_progress)
         [Fulfilled in_progress; Fulfilled in_progress] download)
  = None.
Proof. reflexivity. Qed.

Lemma poll_termination_witness :
  GeminiService.generateVideo "KEY" (Fulfilled in_progress)
    [Fulfilled in_progress; Fulfilled completed] download
  = (polls 2 ++ [GeminiService.Fetch "https://videos/1?alt=media&key=KEY"],
     Some (Fulfilled "blob:1")).
Proof.
  apply (proj2 (poll_termination "KEY" (Fulfilled in_progress)
                  [Fulfilled in_progress; Fulfilled completed] download
                  (polls 2 ++ [GeminiService.Fetch "https://videos/1?alt=media&key=KEY"])
                  "blob:1")).
  exists [in_progress; in_progress], completed, [], "https://videos/1?alt=media",
    {| GeminiService.ok := true; GeminiService.statusText := "OK";
       GeminiService.objectURL := "blob:1" |}.
  repeat split; repeat constructor.
Defined.

End Answers.

(** ** The conversation *)

Section Conversation.

Import Js.
Import Chatbot.

Implicit Types (st : State) (remote : Remote) (chunks : list string).

(** The chunks received, one after the other. *)
Definition joined (chunks : list string) : string := foldr String.append "" chunks.

(** The parts of the user message: the attachment part first (if a file
    is attached), the text part second (if there is text). *)
Definition sent_parts (remote : Remote) (st : State) : list Types.MessagePart :=
  match attachedFile st, reader remote with
  | Some file, Some payload =>
      [Types.inline_part {| Types.data := payload; Types.mimeType := type file |}]
  | _, _ => []
  end
  ++ (if truthy (trim (input st)) then [Types.text_part (input st)] else []).

(** The file reader does not fail on the attachment, if there is one. *)
Definition readable (remote : Remote) (st : State) : bool :=
  match attachedFile st, reader remote with
  | Some _, None => false
  | _, _ => true
  end.

(** The state after the synchronous start of the handler. *)
Definition started (st : State) : State :=
  setSpeech (λ _, []) (setError None (setLoading true st)).

(** The state once the user message is appended and the inputs cleared. *)
Definition asked (remote : Remote) (st : State) : State :=
  setAttachedFile None None
    (setInput (λ _, "")
       (setMessages (λ prev, prev ++ [userMessage (sent_parts remote st)]) (started st))).

(** The transcript while the model's answer is [text]. *)
Definition answering (remote : Remote) (st : State) (text : string) : list Types.Message :=
  (messages st ++ [userMessage (sent_parts remote st)]) ++ [modelMessage text].

Lemma appendChunk_model (base : list Types.Message) (text chunkText : string) :
  appendChunk chunkText (base ++ [modelMessage text])
  = base ++ [modelMessage (text +:+ chunkText)].
Proof.
  unfold appendChunk. rewrite length_app. cbn [length].
  replace (length base + 1 - 1) with (length base) by lia.
  rewrite list_lookup_middle by done. cbn [Types.role modelMessage].
  rewrite insert_app_r_alt by done. by rewrite Nat.sub_diag.
Qed.

(** The handler up to the user message. *)
Lemma handleSend_states_proceeds remote st :
  ignored st = false → readable remote st = true →
  handleSend_states remote st
  = match attachedFile st with Some _ => [started st] | None => [] end
    ++ converse remote (isTtsEnabled st) (sent_parts remote st) (started st).
Proof.
  intros Hgo Hread. unfold handleSend_states, sent_parts, readable in *. rewrite Hgo.
  destruct (attachedFile st) as [file |]; [| done].
  by destruct (reader remote).
Qed.

(** The handler when the attachment cannot be read: the promise of
    [fileToGenerativePart] stays pending and the handler stays suspended
    at its first [await]. *)
Lemma handleSend_states_hangs remote st :
  ignored st = false → readable remote st = false →
  handleSend_states remote st = [started st].
Proof.
  intros Hgo Hread. unfold handleSend_states, readable in *. rewrite Hgo.
  destruct (attachedFile st) as [file |]; [| done].
  by destruct (reader remote).
Qed.

Lemma append_nil_l (s : string) : "" +:+ s = s.
Proof. reflexivity. Qed.

(** How the handler returns when the stream has ended: it speaks the
    answer if asked to; or has thrown [e]: it removes the last message. *)
Definition returned (tts : bool) (failure : option Thrown) (fullResponse : string)
    (base : list Types.Message) (st : State) : State :=
  match failure with
  | Some e =>
      finally
        (setMessages (λ _, base)
           (setError (Some (or_else (message e) "An error occurred while getting a response."))
              st))
  | None =>
      finally
        (if tts && truthy fullResponse
         then setSpeech (λ queue, queue ++ [fullResponse])
                (setMessages (λ _, base ++ [modelMessage fullResponse]) st)
         else setMessages (λ _, base ++ [modelMessage fullResponse]) st)
  end.

(** The states of the loop: one per chunk received so far, in which the
    last message holds these chunks, then the one in which the handler
    returns. *)
Lemma forAwait_states tts chunks failure st base text :
  forAwait tts chunks failure text (setMessages (λ _, base ++ [modelMessage text]) st)
  = map (λ k, setMessages (λ _, base ++ [modelMessage (text +:+ joined (take k chunks))]) st)
      (seq 0 (S (length chunks)))
    ++ [returned tts failure (text +:+ joined chunks) base st].
Proof.
  revert text. induction chunks as [| chunkText chunks IH]; intros text.
  - cbn [forAwait map seq length app take joined foldr]. rewrite append_nil_r.
    f_equal. f_equal. unfold returned. destruct failure as [e |].
    + unfold catch, setMessages at 1. cbn [messages setError setMessages].
      by rewrite slice0_drop_last.
    + by destruct (tts && truthy text).
  - cbn [forAwait length]. rewrite <- cons_seq. cbn [map take joined foldr app].
    rewrite append_nil_r. f_equal.
    replace (setMessages (appendChunk chunkText)
               (setMessages (λ _, base ++ [modelMessage text]) st))
      with (setMessages (λ _, base ++ [modelMessage (text +:+ chunkText)]) st)
      by (unfold setMessages; cbn [messages]; by rewrite appendChunk_model).
    rewrite IH, <- seq_shift, map_map. cbn [take joined foldr].
    rewrite <- !append_assoc. f_equal.
    apply map_ext. intros k. by rewrite append_assoc.
Qed.

(** The states of a send whose stream is opened. *)
Lemma handleSend_states_stream remote st stream :
  ignored st = false → readable remote st = true → chatRef st = true →
  sendMessageStream remote = Fulfilled stream →
  handleSend_states remote st
  = match attachedFile st with Some _ => [started st] | None => [] end
    ++ [asked remote st]
    ++ map (λ k, setMessages
                   (λ _, answering remote st (joined (take k (chunks stream))))
                   (asked remote st))
         (seq 0 (S (length (chunks stream))))
    ++ [returned (isTtsEnabled st) (failure stream) (joined (chunks stream))
          (messages st ++ [userMessage (sent_parts remote st)]) (asked remote st)].
Proof.
  intros Hgo Hread Hchat Hstream. rewrite handleSend_states_proceeds by done.
  f_equal. unfold converse. fold (asked remote st).
  change (chatRef (asked remote st)) with (chatRef st). rewrite Hchat, Hstream.
  f_equal.
  change (setMessages (λ prev, prev ++ [modelMessage ""]) (asked remote st))
    with (setMessages
            (λ _, (messages st ++ [userMessage (sent_parts remote st)]) ++ [modelMessage ""])
            (asked remote st)).
  by rewrite forAwait_states.
Qed.

(** *** One send at a time *)








(** The transcript of a state of a send: the one before the send, or that
    one followed by the user message and, at most, by one model message. *)
Definition transcript_of_send (before : list Types.Message)
    (userParts : list Types.MessagePart) (transcript : list Types.Message) : Prop :=
  transcript = before
  ∨ transcript = before ++ [userMessage userParts]
  ∨ ∃ text, transcript = before ++ [userMessage userParts; modelMessage text].

Lemma forAwait_transcripts tts chunks failure st base text :
  Forall (λ s, messages s = base ∨ ∃ text', messages s = base ++ [modelMessage text'])
    (forAwait tts chunks failure text (setMessages (λ _, base ++ [modelMessage text]) st)).
Proof.
  rewrite forAwait_states. apply Forall_app. split.
  - apply Forall_map, Forall_forall. intros k _. right. by eexists.
  - constructor; [| done]. unfold returned.
    destruct failure as [e |]; [by left |]. right.
    exists (text +:+ joined chunks). by destruct (tts && truthy _).
Qed.

Lemma converse_transcripts remote tts userParts st :
  Forall (λ s, transcript_of_send (messages st) userParts (messages s))
    (converse remote tts userParts st).
Proof.
  unfold converse. cbn [chatRef setAttachedFile setInput setMessages].
  assert (Hrollback : ∀ e s, messages s = messages st ++ [userMessage userParts] →
            transcript_of_send (messages st) userParts (messages (finally (catch e s)))).
  { intros e s Hs. left. unfold finally, catch. cbn [messages setLoading setMessages setError].
    by rewrite Hs, slice0_drop_last. }
  destruct (chatRef st); [| by constructor; [apply Hrollback |]].
  constructor; [by right; left |].
  destruct (sendMessageStream remote) as [stream | e]; [| by constructor; [apply Hrollback |]].
  match goal with
  | |- Forall _ (forAwait _ _ _ _ ?s) =>
      change s with (setMessages
                       (λ _, (messages st ++ [userMessage userParts]) ++ [modelMessage ""]) s)
  end.
  eapply Forall_impl; [apply forAwait_transcripts |].
  intros s [Hs | [text Hs]]; cbn beta in *.
  - by right; left.
  - right; right. exists text. by rewrite Hs, <- app_assoc.
Qed.


Lemma handleSend_returns remote st (states : list State) (final : State) :
  handleSend_states remote st = states ++ [final] → handleSend remote st = final.
Proof. unfold handleSend. intros ->. by rewrite last_snoc. Qed.

Lemma handleSend_stream_returns remote st stream :
  ignored st = false → readable remote st = true → chatRef st = true →
  sendMessageStream remote = Fulfilled stream →
  handleSend remote st
  = returned (isTtsEnabled st) (failure stream) (joined (chunks stream))
      (messages st ++ [userMessage (sent_parts remote st)]) (asked remote st).
Proof.
  intros Hgo Hread Hchat Hstream.
  eapply handleSend_returns. rewrite (handleSend_states_stream remote st stream) by done.
  by rewrite !app_assoc.
Qed.

(** A send for which no stream can be opened, because no chat has been
    created or because [sendMessageStream] rejects, returns through the
    [catch] block in the state in which it has asked. *)
Lemma handleSend_closed remote st :
  ignored st = false → readable remote st = true →
  chatRef st = false ∨ (∃ e, sendMessageStream remote = Rejected e) →
  ∃ e, handleSend remote st = finally (catch e (asked remote st))
       ∧ (chatRef st = false → e = new_Error "Chat not initialized.").
Proof.
  intros Hgo Hread Hclosed.
  pose proof (handleSend_states_proceeds remote st Hgo Hread) as Hstates.
  unfold converse in Hstates. fold (asked remote st) in Hstates.
  change (chatRef (asked remote st)) with (chatRef st) in Hstates.
  destruct (chatRef st) eqn:Hchat.
  - destruct Hclosed as [? | [e He]]; [done |]. rewrite He in Hstates.
    exists e. split; [| done].
    apply (handleSend_returns _ _
             (match attachedFile st with Some _ => [started st] | None => [] end
              ++ [asked remote st])).
    rewrite Hstates. by rewrite <- app_assoc.
  - exists (new_Error "Chat not initialized."). split; [| done].
    by apply (handleSend_returns _ _
                (match attachedFile st with Some _ => [started st] | None => [] end)).
Qed.

(** What the [catch] block leaves of the state in which the send has
    asked: the transcript of before the send, no input, no attachment. *)
Lemma catch_asked remote st e :
  messages (finally (catch e (asked remote st))) = messages st
  ∧ input (finally (catch e (asked remote st))) = ""
  ∧ attachedFile (finally (catch e (asked remote st))) = None
  ∧ error (finally (catch e (asked remote st)))
    = Some (or_else (message e) "An error occurred while getting a response.")
  ∧ loading (finally (catch e (asked remote st))) = false.
Proof.
  unfold finally, catch, asked.
  cbn [messages input attachedFile error loading setLoading setMessages setError
       setInput setAttachedFile].
  by rewrite slice0_drop_last.
Qed.

(** *** Streaming *)

(** C1.  When a send goes through and the stream yields [chunks] and
    ends, the transcripts the session goes through are: some in which no
    model message has been appended yet; then, before the first chunk is
    processed, the transcript that ends with the user message and one
    empty model message; then, chunk after chunk, the same transcript with
    that trailing model message replaced by one holding the chunks
    received so far.  All of these have the same length, and the send
    returns with the trailing model message holding all chunks. *)
Theorem streaming_reassembly remote st chunks :
  ignored st = false → readable remote st = true → chatRef st = true →
  sendMessageStream remote = Fulfilled {| Chatbot.chunks := chunks; failure := None |} →
  ∃ before,
    map messages (handleSend_states remote st)
    = before
      ++ map (λ k, answering remote st (joined (take k chunks))) (seq 0 (S (length chunks)))
      ++ [answering remote st (joined chunks)]
    ∧ Forall (λ transcript,
                transcript = messages st
                ∨ transcript = messages st ++ [userMessage (sent_parts remote st)])
        before
    ∧ (∀ text, length (answering remote st text) = length (answering remote st ""))
    ∧ (∀ text, last (answering remote st text) = Some (modelMessage text))
    ∧ messages (handleSend remote st) = answering remote st (joined chunks).
Proof.
  intros Hgo Hread Hchat Hstream.
  exists (match attachedFile st with Some _ => [messages st] | None => [] end
          ++ [messages st ++ [userMessage (sent_parts remote st)]]).
  split; [| split; [| split; [| split]]].
  - rewrite (handleSend_states_stream remote st _ Hgo Hread Hchat Hstream).
    cbn [Chatbot.chunks failure returned].
    rewrite !map_app, map_map, <- !app_assoc.
    replace (map messages match attachedFile st with Some _ => [started st] | None => [] end)
      with (match attachedFile st with Some _ => [messages st] | None => [] end)
      by by destruct (attachedFile st).
    apply (f_equal (app _)).
    change (map messages [asked remote st])
      with [messages st ++ [userMessage (sent_parts remote st)]].
    apply (f_equal (app _)). apply (f_equal (app _)). unfold answering.
    destruct (isTtsEnabled st && truthy (joined chunks)); cbn; by rewrite <- app_assoc.
  - apply Forall_app. split.
    + destruct (attachedFile st); [| done]. constructor; [by left | done].
    + constructor; [by right | done].
  - intros text. unfold answering. by rewrite !length_app.
  - intros text. unfold answering. by rewrite last_snoc.
  - rewrite (handleSend_stream_returns remote st _ Hgo Hread Hchat Hstream).
    cbn [Chatbot.chunks failure returned]. unfold answering.
    destruct (isTtsEnabled st && truthy (joined chunks)); cbn; by rewrite <- app_assoc.
Qed.

(** The session after the welcome of the Professional persona; the user
    has typed "Hi". *)
Definition greeted : State :=
  {| messages := [modelMessage "Good day. How may I be of service?"];
     input := "Hi"; attachedFile := None; fileType := None;
     loading := false; isTranscribing := false; error := None;
     isTtsEnabled := false; chatRef := true; speechSynthesis := [] |}.

Definition hello_world : Remote :=
  {| reader := None;
     sendMessageStream :=
       Fulfilled {| chunks := ["Hel"; "lo, "; "world"]; failure := None |} |}.

Lemma streaming_reassembly_witness :
  messages (handleSend hello_world greeted)
  = [modelMessage "Good day. How may I be of service?";
     userMessage [Types.text_part "Hi"];
     modelMessage "Hello, world"].
Proof.
  destruct (streaming_reassembly hello_world greeted ["Hel"; "lo, "; "world"])
    as (before & _ & _ & _ & _ & Hfinal); [reflexivity | reflexivity | reflexivity | reflexivity |].
  exact Hfinal.
Defined.

(** The transcripts of that send, one per state. *)
Example streaming_hello_world :
  map messages (handleSend_states hello_world greeted)
  = map (λ reply, modelMessage "Good day. How may I be of service?"
                  :: userMessage [Types.text_part "Hi"] :: reply)
      [ [];
        [modelMessage ""];
        [modelMessage "Hel"];
        [modelMessage "Hello, "];
        [modelMessage "Hello, world"];
        [modelMessage "Hello, world"] ].
Proof. reflexivity. Qed.

(** *** Rollback *)

(** C2.  When the stream fails with [e] after some chunks, the send
    returns with the trailing model message removed: the transcript is the
    one before the send followed by the user message.  The error shown is
    the message of [e], if it has one that is not empty. *)
Theorem rollback_on_failure remote st chunks e :
  ignored st = false → readable remote st = true → chatRef st = true →
  sendMessageStream remote = Fulfilled {| Chatbot.chunks := chunks; failure := Some e |} →
  messages (handleSend remote st) = messages st ++ [userMessage (sent_parts remote st)]
  ∧ last (messages (handleSend remote st)) = Some (userMessage (sent_parts remote st))
  ∧ error (handleSend remote st)
    = Some (or_else (message e) "An error occurred while getting a response.")
  ∧ (∀ supplied, message e = Some supplied → truthy supplied = true →
       error (handleSend remote st) = Some supplied)
  ∧ loading (handleSend remote st) = false.
Proof.
  intros Hgo Hread Hchat Hstream.
  rewrite (handleSend_stream_returns remote st _ Hgo Hread Hchat Hstream).
  cbn [Chatbot.chunks failure returned finally messages error loading
       setLoading setMessages setError].
  split; [done |]. split; [by rewrite last_snoc |]. split; [done |]. split; [| done].
  intros supplied -> Hsupplied. cbn [or_else]. by rewrite Hsupplied.
Qed.

Definition interrupted : Remote :=
  {| reader := None;
     sendMessageStream :=
       Fulfilled {| chunks := ["Hel"]; failure := Some (new_Error "503 Service Unavailable") |} |}.

Lemma rollback_on_failure_witness :
  messages (handleSend interrupted greeted)
  = [modelMessage "Good day. How may I be of service?"; userMessage [Types.text_part "Hi"]]
  ∧ last (messages (handleSend interrupted greeted)) = Some (userMessage [Types.text_part "Hi"])
  ∧ error (handleSend interrupted greeted) = Some "503 Service Unavailable"
  ∧ (∀ supplied, Some "503 Service Unavailable" = Some supplied → truthy supplied = true →
       error (handleSend interrupted greeted) = Some supplied)
  ∧ loading (handleSend interrupted greeted) = false.
Proof.
  apply (rollback_on_failure interrupted greeted ["Hel"] (new_Error "503 Service Unavailable"));
    reflexivity.
Defined.

(** *** Single flight *)





(** A picture and a caption: the picture comes first. *)
Definition captioned : State :=
  {| messages := []; input := "What is this?";
     attachedFile := Some {| fileName := "cat.png"; type := "image/png" |};
     fileType := Some image;
     loading := false; isTranscribing := false; error := None;
     isTtsEnabled := true; chatRef := true; speechSynthesis := [] |}.

Definition a_cat : Remote :=
  {| reader := Some "QUJD";
     sendMessageStream := Fulfilled {| chunks := ["A cat."]; failure := None |} |}.

Example send_parts_order :
  messages (handleSend a_cat captioned)
  = [userMessage
       [Types.inline_part {| Types.mimeType := "image/png"; Types.data := "QUJD" |};
        Types.text_part "What is this?"];
     modelMessage "A cat."]
  ∧ speechSynthesis (handleSend a_cat captioned) = ["A cat."].
Proof. split; reflexivity. Qed.

(** *** Failures and the user's input *)





(** *** Transcription *)

Fixpoint all_white (s : string) : bool :=
  match s with
  | EmptyString => true
  | String c s' => is_white_space c && all_white s'
  end.

Definition starts_white (s : string) : bool :=
  match s with
  | EmptyString => false
  | String c _ => is_white_space c
  end.

Fixpoint ends_white (s : string) : bool :=
  match s with
  | EmptyString => false
  | String c EmptyString => is_white_space c
  | String _ s' => ends_white s'
  end.

Lemma trimStart_spec (s : string) :
  ∃ l, s = l +:+ trimStart s ∧ all_white l = true ∧ starts_white (trimStart s) = false.
Proof.
  induction s as [| c s (l & Hs & Hl & Hstart)]; [by exists "" |].
  cbn [trimStart]. destruct (is_white_space c) eqn:Hc.
  - exists (String c l). rewrite append_cons, <- Hs. cbn [all_white]. by rewrite Hc, Hl.
  - exists "". by repeat split.
Qed.

Lemma trimEnd_spec (s : string) :
  ∃ r, s = trimEnd s +:+ r ∧ all_white r = true ∧ ends_white (trimEnd s) = false.
Proof.
  induction s as [| c s (r & Hs & Hr & Hend)]; [by exists "" |].
  cbn [trimEnd]. destruct (trimEnd s) as [| d t] eqn:Ht.
  - rewrite append_nil_l in Hs. subst r. destruct (is_white_space c) eqn:Hc.
    + exists (String c s). cbn [all_white]. by rewrite Hc, Hr.
    + exists s. by repeat split.
  - exists r. rewrite append_cons, <- Hs. by repeat split.
Qed.

Lemma trimEnd_starts (s : string) :
  starts_white s = false → starts_white (trimEnd s) = false.
Proof.
  destruct s as [| c s]; [done |]. cbn [trimEnd starts_white]. intros Hc.
  destruct (trimEnd s); [| done]. by rewrite Hc.
Qed.

(** [trim] removes exactly a run of white space on each side. *)
Lemma trim_spec (s : string) :
  ∃ l r, s = l +:+ trim s +:+ r
         ∧ all_white l = true ∧ all_white r = true
         ∧ starts_white (trim s) = false ∧ ends_white (trim s) = false.
Proof.
  destruct (trimStart_spec s) as (l & Hs & Hl & Hstart).
  destruct (trimEnd_spec (trimStart s)) as (r & Ht & Hr & Hend).
  exists l, r. unfold trim. rewrite <- Ht, <- Hs.
  split; [done |]. split; [done |]. split; [done |]. split; [| done].
  by apply trimEnd_starts.
Qed.

(** C10.  A successful transcription replaces the input by the previous
    input, one space and the transcription when the previous input is not
    empty, and by the transcription when it is, trimmed: the new input
    neither starts nor ends with white space.  No transcription, successful
    or not, changes the transcript. *)
Theorem transcription_merge (payload transcription : string) st :
  input (transcribeAudio (Some payload) (Fulfilled transcription) st)
  = trim (if truthy (input st) then input st +:+ " " +:+ transcription else transcription)
  ∧ starts_white (input (transcribeAudio (Some payload) (Fulfilled transcription) st))
    = false
  ∧ ends_white (input (transcribeAudio (Some payload) (Fulfilled transcription) st))
    = false
  ∧ (∀ reader' transcription',
       Forall (λ s, messages s = messages st)
         (transcribeAudio_states reader' transcription' st)
       ∧ messages (transcribeAudio reader' transcription' st) = messages st).
Proof.
  assert (Hinput :
    input (transcribeAudio (Some payload) (Fulfilled transcription) st)
    = trim (if truthy (input st) then input st +:+ " " +:+ transcription else transcription))
    by reflexivity.
  rewrite Hinput.
  destruct (trim_spec (if truthy (input st) then input st +:+ " " +:+ transcription
                       else transcription)) as (l & r & _ & _ & _ & Hstart & Hend).
  split; [done |]. split; [done |]. split; [done |].
  intros reader' transcription'. unfold transcribeAudio, transcribeAudio_states.
  destruct reader' as [data |]; [destruct transcription' as [text | e] |];
    by repeat constructor.
Qed.

Example merge_appends :
  input (transcribeAudio (Some "QUJD") (Fulfilled " how are you? ") greeted)
  = "Hi  how are you?".
Proof. reflexivity. Qed.

Example merge_replaces_empty :
  merge (" Good morning." +:+ LF) "" = "Good morning.".
Proof. reflexivity. Qed.

End Conversation.

(** * More of the code *)

(** ** components/Chatbot.tsx: the persona modal *)

Module PersonaCreatorModal.

Import Js.

(** The three text fields of the modal. *)
Record State := {
  name : string;
  instruction : string;
  welcomeMessage : string
}.

(** [useState('')], three times. *)
Definition initial : State :=
  {| name := ""; instruction := ""; welcomeMessage := "" |}.



(** The [disabled] attribute of the save button. *)
Definition disabled (st : State) : bool :=
  negb (truthy (trim (name st))) || negb (truthy (trim (instruction st)))
  || negb (truthy (trim (welcomeMessage st))).

End PersonaCreatorModal.


(** What a fresh mount makes of the item the hook has stored. *)
Definition reloaded (h : UsePersonas.State) : gmap string Types.Persona :=
  UsePersonas.personas (UsePersonas.load (UsePersonas.initial (UsePersonas.stored h))).

(** A persona none of whose fields is blank. *)
Definition nonblank (p : Types.Persona) : Prop :=
  PersonaPanel.modal_complete (Types.name p, Types.instruction p, Types.welcomeMessage p)
  = true.

Section RegistryMore.

Import Js.
Import Types.

Implicit Types (m : gmap string Persona) (k : string) (p : Persona)
  (h : UsePersonas.State).

(** The built-in entries of the registry are the constants. *)
Definition builtins_intact h : Prop :=
  ∀ k p, defaultPersonas !! k = Some p → UsePersonas.personas h !! k = Some p.

(** No key of the registry names a property of [Object.prototype]. *)
Definition plain_keys h : Prop :=
  ∀ k, k ∈ Object_prototype → UsePersonas.personas h !! k = None.

Lemma custom_entries_union_lookup m k :
  (UsePersonas.custom_entries m ∪ defaultPersonas) !! k
  = match get defaultPersonas k with
    | own p => Some p
    | inherited _ => None
    | undefined => m !! k
    end.
Proof.
  destruct (get defaultPersonas k) as [p | name |] eqn:Hk.
  - apply get_own in Hk. apply lookup_union_Some_raw. right. split; [| done].
    apply eq_None_not_Some. intros [q [_ Hq%undefined_not_builtin]%custom_entries_lookup].
    congruence.
  - apply get_inherited in Hk as (_ & Hk & Hproto).
    apply lookup_union_None. split; [| done].
    apply eq_None_not_Some. intros [q [_ [_ Hq]%get_undefined]%custom_entries_lookup].
    done.
  - pose proof (undefined_not_builtin k Hk) as Hnone.
    destruct (m !! k) as [q |] eqn:Hq.
    + apply lookup_union_Some_raw. left. by apply custom_entries_lookup.
    + apply lookup_union_None. split; [| done].
      apply eq_None_not_Some. intros [q [Hq' _]%custom_entries_lookup]. congruence.
Qed.

Lemma custom_entries_union m :
  (∀ k p, defaultPersonas !! k = Some p → m !! k = Some p) →
  (∀ k, k ∈ Object_prototype → m !! k = None) →
  UsePersonas.custom_entries m ∪ defaultPersonas = m.
Proof.
  intros Hbuilt Hplain. apply map_eq. intros k. rewrite custom_entries_union_lookup.
  destruct (get defaultPersonas k) as [p | name |] eqn:Hk; [| | done].
  - apply get_own in Hk. by rewrite (Hbuilt k p Hk).
  - apply get_inherited in Hk as (_ & _ & Hproto). by rewrite (Hplain k Hproto).
Qed.

(** What has been stored comes back.  In a registry whose built-in
    entries are the constants and none of whose keys names a property of
    [Object.prototype]: after a successful save under an id that resolves
    neither in the built-in personas nor in [Object.prototype], or a
    successful delete of such an id, a fresh mount rebuilds the registry
    as it is. *)
Theorem reload_restores_registry h persona k :
  builtins_intact h →
  plain_keys h →
  get defaultPersonas (id persona) = undefined →
  get defaultPersonas k = undefined →
  reloaded (UsePersonas.savePersona persona true h)
  = UsePersonas.personas (UsePersonas.savePersona persona true h)
  ∧ reloaded (UsePersonas.deletePersona k true h)
    = UsePersonas.personas (UsePersonas.deletePersona k true h).
Proof.
  intros Hbuilt Hplain Hpersona Hk. unfold reloaded. rewrite deletePersona_custom by done.
  apply get_undefined in Hpersona as [Hfresh Hproto].
  apply undefined_not_builtin in Hk.
  split; cbn; apply custom_entries_union.
  - intros j p Hj. rewrite lookup_insert_ne by congruence. by apply Hbuilt.
  - intros j Hj. rewrite lookup_insert_ne by congruence. by apply Hplain.
  - intros j p Hj. rewrite lookup_delete_ne by congruence. by apply Hbuilt.
  - intros j Hj. apply lookup_delete_None. right. by apply Hplain.
Qed.

Lemma reload_restores_registry_witness :
  reloaded (UsePersonas.savePersona robot true (UsePersonas.initial None))
  = UsePersonas.personas (UsePersonas.savePersona robot true (UsePersonas.initial None))
  ∧ reloaded (UsePersonas.deletePersona "custom-1700000000000" true (UsePersonas.initial None))
    = UsePersonas.personas
        (UsePersonas.deletePersona "custom-1700000000000" true (UsePersonas.initial None)).
Proof.
  apply (reload_restores_registry (UsePersonas.initial None) robot "custom-1700000000000").
  - intros k p Hk. exact Hk.
  - exact defaultPersonas_plain.
  - reflexivity.
  - reflexivity.
Defined.

(** The store holds neither a built-in persona nor one under a key that
    names a property of [Object.prototype]: after a successful save,
    whatever the id, or a delete that the guard lets through, a fresh mount
    gives every built-in id its constant again, nothing under a key that
    names a property of [Object.prototype], and every other key what the
    registry had. *)
Theorem reload_resets_builtins h (c : UsePersonas.Call) k :
  match c with
  | UsePersonas.Save _ succeeds => succeeds = true
  | UsePersonas.Delete id succeeds =>
      succeeds = true ∧ get defaultPersonas id = undefined
  end →
  reloaded (UsePersonas.call h c) !! k
  = match get defaultPersonas k with
    | own p => Some p
    | inherited _ => None
    | undefined => UsePersonas.personas (UsePersonas.call h c) !! k
    end.
Proof.
  intros Hc.
  destruct c as [persona succeeds | id' succeeds]; cbn [UsePersonas.call].
  - subst succeeds. apply custom_entries_union_lookup.
  - destruct Hc as [-> Hid]. unfold reloaded. rewrite deletePersona_custom by done.
    apply custom_entries_union_lookup.
Qed.

Lemma reload_resets_builtins_witness :
  reloaded (UsePersonas.call (UsePersonas.initial None) (UsePersonas.Save impostor true))
    !! "Nexus"
  = Some Nexus.
Proof.
  apply (reload_resets_builtins (UsePersonas.initial None)
           (UsePersonas.Save impostor true) "Nexus").
  reflexivity.
Defined.

(** A persona saved under a key that names a property of
    [Object.prototype] is in the registry until the next mount: it is
    left out of the stored item, and it cannot be deleted. *)
Definition shadow : Persona :=
  {| id := "toString"; name := "Shadow"; instruction := "Hide."; welcomeMessage := "Boo." |}.

Example inherited_name_is_not_stored :
  UsePersonas.personas (UsePersonas.savePersona shadow true (UsePersonas.initial None))
    !! "toString" = Some shadow
  ∧ UsePersonas.stored (UsePersonas.savePersona shadow true (UsePersonas.initial None))
    = Some ∅
  ∧ reloaded (UsePersonas.savePersona shadow true (UsePersonas.initial None)) !! "toString"
    = None
  ∧ UsePersonas.deletePersona "toString" true
      (UsePersonas.savePersona shadow true (UsePersonas.initial None))
    = UsePersonas.savePersona shadow true (UsePersonas.initial None).
Proof. repeat split; reflexivity. Qed.

(** Saving a persona under an id that is not in the registry, and that
    resolves neither in the built-in personas nor in [Object.prototype],
    and deleting that id again gives back the registry. *)
Theorem save_then_delete h persona (w w' : bool) :
  get defaultPersonas (id persona) = undefined →
  UsePersonas.personas h !! id persona = None →
  UsePersonas.personas
    (UsePersonas.deletePersona (id persona) w' (UsePersonas.savePersona persona w h))
  = UsePersonas.personas h.
Proof.
  intros Hfresh Hnew. rewrite deletePersona_custom by done. cbn.
  rewrite delete_insert_eq. by apply delete_id.
Qed.

Lemma save_then_delete_witness :
  UsePersonas.personas
    (UsePersonas.deletePersona (id robot) true
       (UsePersonas.savePersona robot false (UsePersonas.initial None)))
  = UsePersonas.personas (UsePersonas.initial None).
Proof.
  apply (save_then_delete (UsePersonas.initial None) robot false true); reflexivity.
Defined.

End RegistryMore.

Section PersonaFlows.

Import Js.
Import Types.

Implicit Types (st : PersonaPanel.State) (k : string) (p : Persona).




(** The user opens the modal, fills the three fields and saves. *)
Definition create (name instruction welcomeMessage : string) (now : N) (succeeds : bool)
  : list PersonaPanel.Action :=
  [PersonaPanel.OpenCreate;
   PersonaPanel.SaveModal (name, instruction, welcomeMessage) now succeeds].

Lemma created st (name instruction welcomeMessage : string) (now : N) (succeeds : bool) :
  PersonaPanel.modal_complete (name, instruction, welcomeMessage) = true →
  PersonaPanel.run (create name instruction welcomeMessage now succeeds) st
  = {| PersonaPanel.hook :=
         UsePersonas.savePersona
           {| id := "custom-" +:+ pretty now; Types.name := name;
              Types.instruction := instruction; Types.welcomeMessage := welcomeMessage |}
           succeeds (PersonaPanel.hook st);
       PersonaPanel.selectedPersonaId := "custom-" +:+ pretty now;
       PersonaPanel.isModalOpen := false;
       PersonaPanel.editingPersona := None;
       PersonaPanel.savedSelectedPersonaId := PersonaPanel.savedSelectedPersonaId st |}.
Proof.
  intros Hcomplete. unfold create.
  cbn [PersonaPanel.run fold_left PersonaPanel.act PersonaPanel.handleOpenCreateModal
       PersonaPanel.setModal PersonaPanel.isModalOpen].
  by rewrite Hcomplete.
Qed.

(** Creating a persona, with text in the three fields that is not blank.
    In the render that follows the save the new persona is in the registry
    under the id [custom-<Date.now()>], it is selected and in use, it
    counts as custom, and the modal is closed.  The effects of that render
    then put back the selection found in the store, if that id is still
    in the registry: the restore effect runs whenever [personas] changes,
    and before the new selection is stored.  The new persona stays
    selected when the store holds no selection. *)
Theorem create_then_effects st (name instruction welcomeMessage : string)
    (now : N) (succeeds : bool) :
  PersonaPanel.modal_complete (name, instruction, welcomeMessage) = true →
  PersonaPanel.personaConfig
    (PersonaPanel.run (create name instruction welcomeMessage now succeeds) st)
  = own {| id := "custom-" +:+ pretty now; Types.name := name;
           Types.instruction := instruction; Types.welcomeMessage := welcomeMessage |}
  ∧ PersonaPanel.selectedPersonaId
      (PersonaPanel.run (create name instruction welcomeMessage now succeeds) st)
    = "custom-" +:+ pretty now
  ∧ PersonaPanel.isCustomPersona
      (PersonaPanel.run (create name instruction welcomeMessage now succeeds) st)
    = true
  ∧ PersonaPanel.isModalOpen
      (PersonaPanel.run (create name instruction welcomeMessage now succeeds) st)
    = false
  ∧ (∀ stored,
       PersonaPanel.savedSelectedPersonaId st = Some stored → truthy stored = true →
       is_Some (PersonaPanel.personas st !! stored) →
       PersonaPanel.selectedPersonaId
         (PersonaPanel.effects
            (PersonaPanel.run (create name instruction welcomeMessage now succeeds) st))
       = stored)
  ∧ (PersonaPanel.savedSelectedPersonaId st = None →
     PersonaPanel.selectedPersonaId
       (PersonaPanel.effects
          (PersonaPanel.run (create name instruction welcomeMessage now succeeds) st))
     = "custom-" +:+ pretty now).
Proof.
  intros Hcomplete. rewrite created by done.
  assert (Hnew : ∀ h, get (UsePersonas.personas
                   (UsePersonas.savePersona
                      {| id := "custom-" +:+ pretty now; Types.name := name;
                         Types.instruction := instruction;
                         Types.welcomeMessage := welcomeMessage |} succeeds h))
                   ("custom-" +:+ pretty now)
                 = own {| id := "custom-" +:+ pretty now; Types.name := name;
                          Types.instruction := instruction;
                          Types.welcomeMessage := welcomeMessage |})
    by (intros h; apply get_own, lookup_insert_eq).
  split; [| split; [done | split; [| split; [done | split]]]].
  - unfold PersonaPanel.personaConfig, PersonaPanel.personas.
    cbn [PersonaPanel.hook PersonaPanel.selectedPersonaId]. by rewrite Hnew.
  - unfold PersonaPanel.isCustomPersona. cbn [PersonaPanel.selectedPersonaId].
    by rewrite custom_id_undefined.
  - intros stored Hsaved Htruthy Hkey.
    unfold PersonaPanel.effects, PersonaPanel.restored, PersonaPanel.personas.
    cbn [PersonaPanel.selectedPersonaId PersonaPanel.setSelectedPersonaId
         PersonaPanel.savedSelectedPersonaId PersonaPanel.hook].
    rewrite Hsaved, Htruthy, Hnew. cbn [truthy_property andb].
    rewrite (proj2 (truthy_get _ stored)); [done |]. left.
    cbn [UsePersonas.savePersona UsePersonas.personas]. rewrite lookup_insert.
    case_decide; [by eauto | exact Hkey].
  - intros Hnone.
    unfold PersonaPanel.effects, PersonaPanel.restored, PersonaPanel.personas.
    cbn [PersonaPanel.selectedPersonaId PersonaPanel.setSelectedPersonaId
         PersonaPanel.savedSelectedPersonaId PersonaPanel.hook].
    by rewrite Hnone, Hnew.
Qed.

(** The same creation in a session that has stored its selection. *)
Definition professional_stored : PersonaPanel.State :=
  PersonaPanel.persist true (PersonaPanel.initial None None).

Lemma create_then_effects_witness :
  PersonaPanel.personaConfig
    (PersonaPanel.run (create "Robot" "You are a sarcastic robot." "Oh, great."
                         1700000000000%N true) professional_stored)
  = own robot
  ∧ PersonaPanel.selectedPersonaId
      (PersonaPanel.effects
         (PersonaPanel.run (create "Robot" "You are a sarcastic robot." "Oh, great."
                              1700000000000%N true) professional_stored))
    = "Professional".
Proof.
  destruct (create_then_effects professional_stored
              "Robot" "You are a sarcastic robot." "Oh, great." 1700000000000%N true)
    as (Hconfig & _ & _ & _ & Hrestored & _); [reflexivity |].
  split; [exact Hconfig |].
  apply (Hrestored "Professional"); [reflexivity | reflexivity | by eexists].
Defined.



(** *** Ids that name a property of [Object.prototype] *)

(** An id [k] that names a property of [Object.prototype] passes for a key
    of every persona map:
    - [deletePersona k] does nothing, and a persona saved under [k] is
      left out of the stored item;
    - a stored selection [k] is adopted by the restore effect;
    - while [k] is selected, the selection does not count as custom, the
      edit and delete buttons do nothing, the effects do not replace it
      (unless another selection is stored), and when [k] is no key of the
      persona map, [personaConfig] is that property, not a persona. *)
Theorem inherited_name_passes_for_key st k :
  k ∈ Object_prototype →
  (∀ succeeds h, UsePersonas.deletePersona k succeeds h = h)
  ∧ (∀ persona h customPersonas,
       UsePersonas.stored (UsePersonas.savePersona persona true h) = Some customPersonas →
       customPersonas !! k = None)
  ∧ (PersonaPanel.savedSelectedPersonaId st = Some k → PersonaPanel.restored st = k)
  ∧ (PersonaPanel.selectedPersonaId st = k →
       PersonaPanel.isCustomPersona st = false
       ∧ PersonaPanel.handleOpenEditModal st = st
       ∧ (∀ confirmed succeeds, PersonaPanel.handleDeletePersona confirmed succeeds st = st)
       ∧ (PersonaPanel.savedSelectedPersonaId st = None
          ∨ PersonaPanel.savedSelectedPersonaId st = Some k →
          PersonaPanel.selectedPersonaId (PersonaPanel.effects st) = k)
       ∧ (PersonaPanel.personas st !! k = None →
          PersonaPanel.personaConfig st = inherited k)).
Proof.
  intros Hk. split; [| split; [| split]].
  - intros succeeds h. by apply deletePersona_guarded, inherited_found.
  - intros persona h customPersonas [= <-]. apply eq_None_not_Some.
    intros [p [_ [_ Hp]%get_undefined]%custom_entries_lookup]. done.
  - intros Hsaved. unfold PersonaPanel.restored.
    by rewrite Hsaved, (inherited_truthy k Hk), inherited_found.
  - intros Hselected.
    assert (Hcustom : PersonaPanel.isCustomPersona st = false).
    { unfold PersonaPanel.isCustomPersona.
      by rewrite Hselected, inherited_found, andb_false_r. }
    split; [exact Hcustom |]. split; [| split; [| split]].
    + unfold PersonaPanel.handleOpenEditModal. rewrite Hcustom. by destruct (get _ _).
    + intros confirmed succeeds. unfold PersonaPanel.handleDeletePersona. by rewrite Hcustom.
    + intros Hsaved. unfold PersonaPanel.effects, PersonaPanel.restored.
      cbn [PersonaPanel.selectedPersonaId PersonaPanel.setSelectedPersonaId].
      rewrite Hselected, inherited_found by done.
      destruct Hsaved as [-> | ->]; [done |]. by destruct (truthy k && _).
    + intros Hnone. unfold PersonaPanel.personaConfig, get.
      by rewrite Hselected, Hnone, bool_decide_eq_true_2.
Qed.

Lemma inherited_name_passes_for_key_witness :
  PersonaPanel.restored (PersonaPanel.initial None (Some "constructor")) = "constructor".
Proof.
  destruct (inherited_name_passes_for_key
              (PersonaPanel.initial None (Some "constructor")) "constructor")
    as (_ & _ & Hrestored & _).
  - apply list_elem_of_here.
  - by apply Hrestored.
Defined.

(** *** No blank persona *)

Definition all_nonblank (m : gmap string Persona) : Prop :=
  ∀ k p, m !! k = Some p → nonblank p.

(** The registry and the store hold no persona with a blank field, the
    registry has an entry for ['Professional'], and neither the selection
    nor the stored selection names a property of [Object.prototype]. *)
Record never_blank st : Prop := {
  registry_nonblank : all_nonblank (PersonaPanel.personas st);
  stored_nonblank :
    ∀ customPersonas,
      UsePersonas.stored (PersonaPanel.hook st) = Some customPersonas →
      all_nonblank customPersonas;
  professional_kept : is_Some (PersonaPanel.personas st !! "Professional");
  selection_plain : PersonaPanel.selectedPersonaId st ∉ Object_prototype;
  saved_plain :
    ∀ saved, PersonaPanel.savedSelectedPersonaId st = Some saved →
             saved ∉ Object_prototype
}.

Lemma defaultPersonas_nonblank : all_nonblank defaultPersonas.
Proof.
  intros k p. unfold defaultPersonas. rewrite !lookup_insert, lookup_empty.
  repeat case_decide; intros [= <-]; reflexivity.
Qed.

Lemma builtin_plain k p : defaultPersonas !! k = Some p → k ∉ Object_prototype.
Proof. intros Hk Hproto%defaultPersonas_plain. congruence. Qed.

Lemma values_lookup (m : gmap string Persona) p :
  p ∈ map snd (map_to_list m) → ∃ j, m !! j = Some p.
Proof.
  intros ([j q] & Hq & Hin)%list_elem_of_In%in_map_iff. cbn in Hq. subst q.
  exists j. by apply elem_of_map_to_list, list_elem_of_In.
Qed.

(** The options of the [<select>] are ids that do not name a property of
    [Object.prototype]. *)
Lemma options_plain st k : k ∈ PersonaPanel.options st → k ∉ Object_prototype.
Proof.
  unfold PersonaPanel.options, PersonaPanel.customPersonas.
  generalize defaultPersonas_id, builtin_plain.
  generalize defaultPersonas. intros defaults Hid Hplain.
  intros [Hin | Hin]%elem_of_app;
    apply list_elem_of_In, in_map_iff in Hin as (p & <- & Hin);
    apply list_elem_of_In in Hin.
  - apply values_lookup in Hin as [j Hj]. rewrite (Hid j p Hj). by apply (Hplain j p).
  - apply list_elem_of_filter in Hin as [Hcustom _].
    by apply falsy_get, get_undefined in Hcustom as [_ ?].
Qed.

Lemma setItem_nonblank (w : bool) (m : gmap string Persona) old :
  all_nonblank m →
  (∀ c, old = Some c → all_nonblank c) →
  ∀ c, UsePersonas.setItem w (UsePersonas.custom_entries m) old = Some c → all_nonblank c.
Proof.
  intros Hm Hold c. destruct w; cbn; [| apply Hold].
  intros [= <-] k p [Hk _]%custom_entries_lookup. by apply (Hm k).
Qed.

Lemma act_never_blank st a : never_blank st → never_blank (PersonaPanel.act st a).
Proof.
  intros [Hreg Hstored Hprofessional Hselected Hsaved].
  assert (Hsame : ∀ st', PersonaPanel.hook st' = PersonaPanel.hook st →
                         PersonaPanel.selectedPersonaId st' = PersonaPanel.selectedPersonaId st →
                         PersonaPanel.savedSelectedPersonaId st'
                         = PersonaPanel.savedSelectedPersonaId st →
                         never_blank st').
  { intros st' Hhook Hsel Hsav.
    split; unfold PersonaPanel.personas; rewrite ?Hhook, ?Hsel, ?Hsav; done. }
  destruct a as [| sel | | | | [[name instruction] welcomeMessage] now w | confirmed w | | w];
    cbn [PersonaPanel.act].
  - unfold UsePersonas.load.
    destruct (UsePersonas.stored (PersonaPanel.hook st)) as [custom |] eqn:Hcustom;
      [| by apply Hsame].
    split; [| | | done | done].
    + intros k p [Hk | [_ Hk]]%lookup_union_Some_raw.
      * by apply (Hstored custom eq_refl k).
      * by apply (defaultPersonas_nonblank k).
    + cbn. exact Hstored.
    + unfold PersonaPanel.personas. cbn. apply lookup_union_is_Some. by right.
  - case_bool_decide as Hoption; [| by apply Hsame].
    split; try done. cbn. by apply (options_plain st).
  - by apply Hsame.
  - unfold PersonaPanel.handleOpenEditModal.
    destruct (get (PersonaPanel.personas st) _); [| by apply Hsame | by apply Hsame].
    destruct (PersonaPanel.isCustomPersona st); by apply Hsame.
  - by apply Hsame.
  - destruct (PersonaPanel.isModalOpen st); cbn [andb]; [| by apply Hsame].
    destruct (PersonaPanel.modal_complete _) eqn:Hcomplete; [| by apply Hsame].
    assert (Hnew : ∀ i, all_nonblank
              (<[i := {| id := i; Types.name := name; Types.instruction := instruction;
                         Types.welcomeMessage := welcomeMessage |}]>
                 (PersonaPanel.personas st))).
    { intros i k p. rewrite lookup_insert. case_decide; [by intros [= <-] | apply Hreg]. }
    assert (Hkept : ∀ i (q : Persona),
              is_Some (<[i := q]> (PersonaPanel.personas st) !! "Professional")).
    { intros i q. rewrite lookup_insert. by case_decide. }
    unfold PersonaPanel.handleSaveOrUpdatePersona.
    destruct (PersonaPanel.editingPersona st) as [editing |];
      (split; [apply Hnew | by apply setItem_nonblank | apply Hkept | | done]);
      [done |].
    cbn. by destruct (proj1 (get_undefined _ _) (custom_id_undefined now)).
  - unfold PersonaPanel.handleDeletePersona.
    destruct (negb _); [by apply Hsame |]. destruct confirmed; [| by apply Hsame].
    unfold UsePersonas.deletePersona.
    destruct (truthy_property (get defaultPersonas _)) eqn:Hguard; [by apply Hsame |].
    assert (Hless : all_nonblank
              (delete (PersonaPanel.selectedPersonaId st) (PersonaPanel.personas st))).
    { intros k p [_ Hk]%lookup_delete_Some. by apply (Hreg k). }
    split; [exact Hless | by apply setItem_nonblank | | done | done].
    unfold PersonaPanel.personas. cbn. rewrite lookup_delete_ne; [done |].
    intros Heq. rewrite Heq in Hguard. discriminate Hguard.
  - split; try done. cbn. unfold PersonaPanel.restored.
    destruct (truthy_property (get _ (PersonaPanel.selectedPersonaId st)));
      [| by apply (builtin_plain _ Professional)].
    destruct (PersonaPanel.savedSelectedPersonaId st) as [saved |] eqn:Hsav; [| done].
    destruct (truthy saved && _); [by apply Hsaved | done].
  - split; try done. cbn. by intros saved [= <-] || (destruct w; [intros saved [= <-] |]).
Qed.

Lemma run_never_blank acts st : never_blank st → never_blank (PersonaPanel.run acts st).
Proof.
  revert st. induction acts as [| a acts IH]; intros st Hst; [done |].
  apply IH. by apply act_never_blank.
Qed.

(** Whatever the user does with the persona controls, starting from a
    store without blank personas and a stored selection that does not name
    a property of [Object.prototype]: the persona in use is a persona of
    the registry whose name, instruction and welcome message are not
    blank, so the transcript is never seeded with an empty welcome. *)
Theorem persona_never_blank (acts : list PersonaPanel.Action)
    (stored : option (gmap string Persona)) (saved : option string) :
  (∀ customPersonas, stored = Some customPersonas → all_nonblank customPersonas) →
  (∀ persisted, saved = Some persisted → persisted ∉ Object_prototype) →
  ∃ p,
    PersonaPanel.personaConfig (PersonaPanel.run acts (PersonaPanel.initial stored saved))
    = own p
    ∧ nonblank p ∧ truthy (welcomeMessage p) = true.
Proof.
  intros Hstored Hsaved.
  assert (Hinv : never_blank (PersonaPanel.run acts (PersonaPanel.initial stored saved))).
  { apply run_never_blank.
    split; [apply defaultPersonas_nonblank | exact Hstored | by eexists | | exact Hsaved].
    by apply (builtin_plain _ Professional). }
  destruct Hinv as [Hreg _ [q Hq] Hselected _].
  set (st := PersonaPanel.run acts (PersonaPanel.initial stored saved)) in *.
  assert (Hconfig : ∃ p k, PersonaPanel.personaConfig st = own p
                           ∧ PersonaPanel.personas st !! k = Some p).
  { unfold PersonaPanel.personaConfig, get.
    destruct (PersonaPanel.personas st !! PersonaPanel.selectedPersonaId st)
      as [p |] eqn:Hp; [by eauto |].
    rewrite bool_decide_eq_false_2 by done. rewrite Hq. by eauto. }
  destruct Hconfig as (p & k & Hconfig & Hp). exists p.
  pose proof (Hreg k p Hp) as Hnonblank.
  split; [done |]. split; [done |].
  unfold nonblank, PersonaPanel.modal_complete in Hnonblank.
  apply andb_true_iff in Hnonblank as [_ Hwelcome].
  destruct (welcomeMessage p); [discriminate Hwelcome | done].
Qed.

Lemma persona_never_blank_witness :
  ∃ p,
    PersonaPanel.personaConfig (PersonaPanel.run sample_actions (PersonaPanel.initial None None))
    = own p
    ∧ nonblank p ∧ truthy (welcomeMessage p) = true.
Proof.
  apply (persona_never_blank sample_actions None None).
  - intros customPersonas Hnone. discriminate Hnone.
  - intros persisted Hnone. discriminate Hnone.
Defined.

End PersonaFlows.

(** ** components/VideoCreator.tsx *)

Module VideoCreator.

Import Js.

Definition loadingMessages : list string :=
  ["Warming up the video engine...";
   "Generating initial storyboard...";
   "Rendering high-resolution frames (this can take a moment)...";
   "Applying visual effects...";
   "Encoding your masterpiece...";
   "Finalizing and preparing for download..."].

Record State := {
  prompt : string;
  loading : bool;
  loadingMessage : string;
  error : option string;
  videoUrl : option string
}.

(** The callback given to [generateVideo], on the local [messageIndex]:
    [messageIndex = (messageIndex + 1) % loadingMessages.length]. *)
Definition onProgress (messageIndex : nat) : nat :=
  (messageIndex + 1) mod length loadingMessages.

(** [messageIndex] after the events of a call of [generateVideo]. *)
Definition messageIndex_after (events : list GeminiService.Event) : nat :=
  fold_left (λ messageIndex e,
               match e with
               | GeminiService.OnProgress => onProgress messageIndex
               | _ => messageIndex
               end)
    events 0.

(** [loadingMessages[messageIndex]] *)
Definition message_at (messageIndex : nat) : string :=
  default "" (loadingMessages !! messageIndex).

(** The state in which the handler returns or, when the answers of the
    service run out while it polls, the state in which it is waiting. *)
Definition handleGenerate (API_KEY : string)
    (started : Settled GeminiService.VideoOperation)
    (answers : list (Settled GeminiService.VideoOperation))
    (fetch : string -> Settled GeminiService.FetchResponse)
    (st : State) : State :=
  if negb (truthy (prompt st)) then
    {| prompt := prompt st; loading := loading st; loadingMessage := loadingMessage st;
       error := Some "Please enter a prompt."; videoUrl := videoUrl st |}
  else
    let '(events, outcome) := GeminiService.generateVideo API_KEY started answers fetch in
    let shown := message_at (messageIndex_after events) in
    match outcome with
    | None =>
        {| prompt := prompt st; loading := true; loadingMessage := shown;
           error := None; videoUrl := None |}
    | Some (Fulfilled url) =>
        {| prompt := prompt st; loading := false; loadingMessage := shown;
           error := None; videoUrl := Some url |}
    | Some (Rejected e) =>
        {| prompt := prompt st; loading := false; loadingMessage := shown;
           error := Some (or_else (message e) "Failed to generate video. Please try again.");
           videoUrl := None |}
    end.

End VideoCreator.

(** ** More on the answers of the service *)

Section AnswersMore.

Import Js.

Definition waiting_events : list GeminiService.Event :=
  [GeminiService.OnProgress; GeminiService.SetTimeout 10000].

(** The loop is still waiting exactly when every handle seen so far is
    pending and no status check has failed; it has then made one turn per
    answer and started another one. *)
Lemma poll_waits operation answers events :
  GeminiService.poll operation answers = (events, None) ↔
  ∃ operations,
    answers = map Fulfilled operations
    ∧ Forall pending (operation :: operations)
    ∧ events = polls (length answers) ++ waiting_events.
Proof.
  split.
  - revert operation events.
    induction answers as [| answer answers IH]; intros operation events;
      cbn [GeminiService.poll]; destruct (GeminiService.done operation) eqn:Hdone; try done.
    + intros [= <-]. exists []. split; [done |]. split; [by repeat constructor | done].
    + destruct answer as [operation' | e]; [| done].
      destruct (GeminiService.poll operation' answers) as [events' r] eqn:Hpoll.
      intros [= <- ->].
      destruct (IH _ _ Hpoll) as (operations & -> & Hpending & ->).
      exists (operation' :: operations). split; [done |]. split; [by constructor |].
      cbn [length map]. unfold polls. cbn [replicate concat]. by rewrite <- app_assoc.
  - intros (operations & -> & Hpending & ->).
    revert operation Hpending.
    induction operations as [| operation' operations IH]; intros operation Hpending;
      inversion Hpending as [| ? ? Hfirst Hrest]; subst; cbn [map GeminiService.poll];
      rewrite Hfirst; [done |].
    rewrite (IH operation' Hrest). cbn [length]. unfold polls. cbn [replicate concat].
    by rewrite <- app_assoc.
Qed.

Lemma polls_then (n : nat) (tail : list GeminiService.Event) :
  progress_count (polls n ++ tail) = n + progress_count tail
  ∧ check_count (polls n ++ tail) = n + check_count tail
  ∧ sleeps (polls n ++ tail) = replicate n 10000%Z ++ sleeps tail.
Proof.
  unfold progress_count, check_count, sleeps.
  induction n as [| n (IHp & IHc & IHs)]; [done |].
  unfold polls in *. cbn [replicate concat].
  rewrite <- !app_assoc. cbn [GeminiService.one_poll app List.filter omap list_omap length].
  by rewrite IHp, IHc, IHs.
Qed.

(** [generateVideo] never gives up: as long as the request and every
    status check are answered by a handle that is not done, it neither
    resolves nor rejects, however many answers there are; it has made one
    turn of the loop per answer and has called [onProgress] once more.
    And it is only in this case that it is still running. *)
Theorem generateVideo_keeps_polling
    (API_KEY : string) (started : Settled GeminiService.VideoOperation)
    (answers : list (Settled GeminiService.VideoOperation))
    (fetch : string → Settled GeminiService.FetchResponse)
    (events : list GeminiService.Event) :
  GeminiService.generateVideo API_KEY started answers fetch = (events, None)
  ↔ ∃ operations,
      started :: answers = map Fulfilled operations
      ∧ Forall pending operations
      ∧ events = polls (length answers) ++ waiting_events
      ∧ progress_count events = S (length answers)
      ∧ check_count events = length answers.
Proof.
  unfold GeminiService.generateVideo. split.
  - destruct started as [operation | e]; [| done].
    destruct (GeminiService.poll operation answers) as [events' [[final | e] |]] eqn:Hpoll.
    + destruct (GeminiService.uri final) as [link |]; [| done].
      destruct (truthy link); [| done].
      destruct (fetch _) as [response |]; [| done]. by destruct (GeminiService.ok response).
    + done.
    + intros [= <-]. apply poll_waits in Hpoll as (operations & -> & Hpending & ->).
      exists (operation :: operations).
      destruct (polls_then (length (map Fulfilled operations)) waiting_events)
        as (Hp & Hc & _).
      rewrite Hp, Hc. cbn. repeat split; (done || lia).
  - intros ([| operation operations] & Hseen & Hpending & -> & _); [done |].
    injection Hseen as -> ->.
    assert (Hpoll : GeminiService.poll operation (map Fulfilled operations)
                    = (polls (length (map Fulfilled operations)) ++ waiting_events, None)).
    { apply poll_waits. by exists operations. }
    by rewrite Hpoll.
Qed.

(** The events of the loop in every outcome: full turns, and the
    beginning of one more exactly when it is still waiting. *)
Lemma poll_events operation answers events outcome :
  GeminiService.poll operation answers = (events, outcome) →
  ∃ n, n ≤ length answers
       ∧ events = polls n ++ match outcome with None => waiting_events | Some _ => [] end.
Proof.
  revert operation events.
  induction answers as [| answer answers IH]; intros operation events;
    cbn [GeminiService.poll]; destruct (GeminiService.done operation).
  - intros [= <- <-]. by exists 0.
  - intros [= <- <-]. by exists 0.
  - intros [= <- <-]. exists 0. split; [lia | done].
  - destruct answer as [operation' | e].
    + destruct (GeminiService.poll operation' answers) as [events' r] eqn:Hpoll.
      intros [= <- <-]. destruct (IH _ _ Hpoll) as (n & Hn & ->).
      exists (S n). split; [cbn; lia |].
      unfold polls. cbn [replicate concat]. by rewrite <- app_assoc.
    + intros [= <- <-]. exists 1. split; [cbn; lia |]. unfold polls. cbn. done.
Qed.

(** What follows the full turns of the loop, by outcome. *)
Definition after_polls (outcome : option (Settled string))
    (tail : list GeminiService.Event) : Prop :=
  match outcome with
  | None => tail = waiting_events
  | Some (Fulfilled _) => ∃ link, tail = [GeminiService.Fetch link]
  | Some (Rejected e) =>
      e = new_Error "Failed to communicate with the video generation service."
      ∧ (tail = [] ∨ ∃ link, tail = [GeminiService.Fetch link])
  end.

(** In every outcome of [generateVideo]:
    - its events are some full turns of the loop (progress, 10 s sleep,
      status check), at most one per answer, followed by the start of a
      further turn when it is still waiting, by the one fetch of the video
      when it resolves, and by that fetch or by nothing when it rejects;
      so it calls [onProgress] before every status check and fetches at
      most once, at the end;
    - when it rejects, the error is always the same, whatever went wrong. *)
Theorem generateVideo_outcomes
    (API_KEY : string) (started : Settled GeminiService.VideoOperation)
    (answers : list (Settled GeminiService.VideoOperation))
    (fetch : string → Settled GeminiService.FetchResponse)
    (events : list GeminiService.Event) (outcome : option (Settled string)) :
  GeminiService.generateVideo API_KEY started answers fetch = (events, outcome) →
  ∃ n tail, n ≤ length answers ∧ events = polls n ++ tail ∧ after_polls outcome tail.
Proof.
  unfold GeminiService.generateVideo.
  destruct started as [operation | e];
    [| intros [= <- <-]; exists 0, []; split; [lia |]; split; [done |]; cbn; by eauto].
  destruct (GeminiService.poll operation answers) as [events' r] eqn:Hpoll.
  destruct (poll_events _ _ _ _ Hpoll) as (n & Hn & ->).
  destruct r as [[final | e] |]; rewrite ?app_nil_r.
  - destruct (GeminiService.uri final) as [link |];
      [destruct (truthy link);
       [destruct (fetch _) as [response | e]; [destruct (GeminiService.ok response) |] |] |];
      intros [= <- <-].
    + exists n, [GeminiService.Fetch (link +:+ "&key=" +:+ API_KEY)]. cbn. by eauto.
    + exists n, [GeminiService.Fetch (link +:+ "&key=" +:+ API_KEY)]. cbn. by eauto 6.
    + exists n, [GeminiService.Fetch (link +:+ "&key=" +:+ API_KEY)]. cbn. by eauto 6.
    + exists n, []. rewrite app_nil_r. cbn. by eauto.
    + exists n, []. rewrite app_nil_r. cbn. by eauto.
  - intros [= <- <-]. exists n, []. rewrite app_nil_r. cbn. by eauto.
  - intros [= <- <-]. exists n, waiting_events. by cbn.
Qed.

Definition unreachable (url : string) : Settled GeminiService.FetchResponse :=
  Fulfilled {| GeminiService.ok := false; GeminiService.statusText := "Forbidden";
               GeminiService.objectURL := "" |}.

Lemma generateVideo_outcomes_witness :
  ∃ n tail,
    n ≤ 2
    ∧ [GeminiService.OnProgress; GeminiService.SetTimeout 10000; GeminiService.GetVideosOperation;
       GeminiService.OnProgress; GeminiService.SetTimeout 10000; GeminiService.GetVideosOperation;
       GeminiService.Fetch "https://videos/1?alt=media&key=KEY"]
      = polls n ++ tail
    ∧ after_polls
        (Some (Rejected (new_Error "Failed to communicate with the video generation service.")))
        tail.
Proof.
  apply (generateVideo_outcomes "KEY" (Fulfilled in_progress)
           [Fulfilled in_progress; Fulfilled completed] unreachable).
  reflexivity.
Defined.

(** *** The video view *)

Lemma generateVideo_rejection API_KEY started answers fetch events e :
  GeminiService.generateVideo API_KEY started answers fetch = (events, Some (Rejected e)) →
  e = new_Error "Failed to communicate with the video generation service.".
Proof.
  unfold GeminiService.generateVideo.
  destruct started as [operation |]; [| by intros [= _ <-]].
  destruct (GeminiService.poll operation answers) as [events' [[final |] |]];
    [| by intros [= _ <-] | done].
  destruct (GeminiService.uri final) as [link |]; [| by intros [= _ <-]].
  destruct (truthy link); [| by intros [= _ <-]].
  destruct (fetch _) as [response |]; [| by intros [= _ <-]].
  destruct (GeminiService.ok response); [done | by intros [= _ <-]].
Qed.

Lemma messageIndex_counts (events : list GeminiService.Event) :
  VideoCreator.messageIndex_after events = progress_count events mod 6.
Proof.
  unfold VideoCreator.messageIndex_after.
  assert (Hfrom : ∀ i, i < 6 →
            fold_left (λ messageIndex e,
                         match e with
                         | GeminiService.OnProgress => VideoCreator.onProgress messageIndex
                         | _ => messageIndex
                         end) events i
            = (i + progress_count events) mod 6).
  { change (length VideoCreator.loadingMessages) with 6 in *.
    induction events as [| e events IH]; intros i Hi.
    - cbn [fold_left]. unfold progress_count. cbn [List.filter length].
      rewrite Nat.add_0_r. symmetry. by apply Nat.mod_small.
    - cbn [fold_left]. destruct e; unfold progress_count in *; cbn [List.filter length];
        try (by apply IH).
      unfold VideoCreator.onProgress. change (length VideoCreator.loadingMessages) with 6.
      rewrite IH by (apply Nat.mod_upper_bound; lia).
      rewrite Nat.Div0.add_mod_idemp_l. f_equal. lia. }
  rewrite Hfrom by lia. by rewrite Nat.add_0_l.
Qed.

(** The video view, for a prompt that is not empty.  The loading message
    is the one at the number of [onProgress] calls modulo six: it advances
    once per poll and wraps around.  While the service keeps answering
    "not done" the view stays loading, without error; when the video is
    fetched it shows it; and when anything fails it shows "Failed to
    communicate with the video generation service.", never the fallback
    text of the handler and never the more specific message the service
    function had thrown. *)
Theorem video_view
    (API_KEY : string) (started : Settled GeminiService.VideoOperation)
    (answers : list (Settled GeminiService.VideoOperation))
    (fetch : string → Settled GeminiService.FetchResponse)
    (events : list GeminiService.Event) (outcome : option (Settled string))
    (st : VideoCreator.State) :
  truthy (VideoCreator.prompt st) = true →
  GeminiService.generateVideo API_KEY started answers fetch = (events, outcome) →
  VideoCreator.loadingMessage (VideoCreator.handleGenerate API_KEY started answers fetch st)
  = VideoCreator.message_at (progress_count events mod 6)
  ∧ VideoCreator.prompt (VideoCreator.handleGenerate API_KEY started answers fetch st)
    = VideoCreator.prompt st
  ∧ match outcome with
    | None =>
        VideoCreator.loading (VideoCreator.handleGenerate API_KEY started answers fetch st)
        = true
        ∧ VideoCreator.error (VideoCreator.handleGenerate API_KEY started answers fetch st)
          = None
        ∧ VideoCreator.videoUrl (VideoCreator.handleGenerate API_KEY started answers fetch st)
          = None
    | Some (Fulfilled url) =>
        VideoCreator.loading (VideoCreator.handleGenerate API_KEY started answers fetch st)
        = false
        ∧ VideoCreator.error (VideoCreator.handleGenerate API_KEY started answers fetch st)
          = None
        ∧ VideoCreator.videoUrl (VideoCreator.handleGenerate API_KEY started answers fetch st)
          = Some url
    | Some (Rejected _) =>
        VideoCreator.loading (VideoCreator.handleGenerate API_KEY started answers fetch st)
        = false
        ∧ VideoCreator.error (VideoCreator.handleGenerate API_KEY started answers fetch st)
          = Some "Failed to communicate with the video generation service."
        ∧ VideoCreator.videoUrl (VideoCreator.handleGenerate API_KEY started answers fetch st)
          = None
    end.
Proof.
  intros Hprompt Hvideo. unfold VideoCreator.handleGenerate.
  rewrite Hprompt, Hvideo. cbn [negb]. rewrite messageIndex_counts.
  destruct outcome as [[url | e] |]; [done | | done].
  apply generateVideo_rejection in Hvideo as ->. done.
Qed.

Definition video_idle : VideoCreator.State :=
  {| VideoCreator.prompt := "a cat on a skateboard"; VideoCreator.loading := false;
     VideoCreator.loadingMessage := ""; VideoCreator.error := None;
     VideoCreator.videoUrl := None |}.

(** Seven status checks answered "not done", then the video. *)
Definition seven_polls : list (Settled GeminiService.VideoOperation) :=
  replicate 6 (Fulfilled in_progress) ++ [Fulfilled completed].

Lemma video_view_witness :
  VideoCreator.loadingMessage
    (VideoCreator.handleGenerate "KEY" (Fulfilled in_progress) seven_polls download video_idle)
  = "Generating initial storyboard..."
  ∧ VideoCreator.prompt
      (VideoCreator.handleGenerate "KEY" (Fulfilled in_progress) seven_polls download video_idle)
    = "a cat on a skateboard"
  ∧ VideoCreator.loading
      (VideoCreator.handleGenerate "KEY" (Fulfilled in_progress) seven_polls download video_idle)
    = false
  ∧ VideoCreator.error
      (VideoCreator.handleGenerate "KEY" (Fulfilled in_progress) seven_polls download video_idle)
    = None
  ∧ VideoCreator.videoUrl
      (VideoCreator.handleGenerate "KEY" (Fulfilled in_progress) seven_polls download video_idle)
    = Some "blob:1".
Proof.
  apply (video_view "KEY" (Fulfilled in_progress) seven_polls download
           (polls 7 ++ [GeminiService.Fetch "https://videos/1?alt=media&key=KEY"])
           (Some (Fulfilled "blob:1")) video_idle);
    reflexivity.
Defined.

End AnswersMore.

(** ** components/ImageGenerator.tsx: the rest of the view *)

Module ImageGeneratorView.

Import Js.
Import ImageGenerator.

(** The initial values of the state cells, over what the store holds. *)
Definition initial (stored : option (list ImageHistoryItem)) : State :=
  {| prompt := ""; aspectRatio := Square; loading := false; error := None;
     imageUrl := None; history := []; stored := stored |}.

(** The mount effect: [if (storedHistory) setHistory(JSON.parse(storedHistory))]. *)
Definition mount (st : State) : State :=
  match stored st with
  | Some storedHistory =>
      {| prompt := prompt st; aspectRatio := aspectRatio st; loading := loading st;
         error := error st; imageUrl := imageUrl st; history := storedHistory;
         stored := stored st |}
  | None => st
  end.

Definition handleSelectFromHistory (item : ImageHistoryItem) (st : State) : State :=
  {| prompt := item_prompt item; aspectRatio := item_aspectRatio item;
     loading := loading st; error := None; imageUrl := Some (url item);
     history := history st; stored := stored st |}.

(** What happens in the view.  A record is selected by a click on its
    picture in the gallery, which shows the records of [history]. *)
Inductive Action :=
| Mount
| Edit (prompt : string) (aspectRatio : AspectRatio)
| Generate (now : N) (response : Settled (option (list string))) (quota : option Thrown)
| Select (index : nat)
| Clear (confirmed : bool).

Definition act (st : State) (a : Action) : State :=
  match a with
  | Mount => mount st
  | Edit p r => edit p r st
  | Generate now response quota => handleGenerate now response quota st
  | Select index =>
      match history st !! index with
      | Some item => handleSelectFromHistory item st
      | None => st
      end
  | Clear confirmed => handleClearHistory confirmed st
  end.

Definition run (acts : list Action) (st : State) : State := fold_left act acts st.

(** [localStorage.setItem] does not throw in this action. *)
Definition stores (a : Action) : bool :=
  match a with
  | Generate _ _ (Some _) => false
  | _ => true
  end.

End ImageGeneratorView.

Section Gallery.

Import Js.
Import ImageGenerator.

Implicit Types (st : State) (h : list ImageHistoryItem).

(** The store holds what the view shows. *)
Definition mirrored st : Prop :=
  stored st = Some (history st) ∨ (stored st = None ∧ history st = []).

Definition bounded st : Prop :=
  length (history st) ≤ 20 ∧ ∀ h, stored st = Some h → length h ≤ 20.

Lemma slice0_20_length {A} (l : list A) : length (slice0 20 l) ≤ 20.
Proof. rewrite slice0_20, length_take. lia. Qed.

Lemma act_bounded st a : bounded st → bounded (ImageGeneratorView.act st a).
Proof.
  intros Hst. pose proof Hst as [Hview Hstore].
  assert (Hpushed : ∀ new, length (slice0 20 (new :: history st)) ≤ 20)
    by (intros new; apply slice0_20_length).
  destruct a as [| p r | now response quota | index | confirmed]; cbn [ImageGeneratorView.act].
  - unfold ImageGeneratorView.mount. destruct (stored st) as [h |] eqn:Hh; [| exact Hst].
    split; cbn [history stored]; [by apply Hstore | exact Hstore].
  - exact Hst.
  - unfold handleGenerate. destruct (negb _); [exact Hst |].
    destruct (GeminiService.generateImage response) as [url | e]; [| exact Hst].
    destruct quota as [e |]; split; cbn [history stored]; try apply Hpushed; try exact Hstore.
    intros h [= <-]. apply Hpushed.
  - destruct (history st !! index); exact Hst.
  - unfold handleClearHistory. destruct confirmed; [| exact Hst].
    split; cbn [history stored length]; [lia | done].
Qed.

Lemma act_mirrored st a :
  ImageGeneratorView.stores a = true → mirrored st → mirrored (ImageGeneratorView.act st a).
Proof.
  intros Hstores Hst.
  destruct a as [| p r | now response quota | index | confirmed]; cbn [ImageGeneratorView.act].
  - unfold ImageGeneratorView.mount. destruct Hst as [Hsome | [Hnone Hempty]].
    + rewrite Hsome. by left.
    + rewrite Hnone. by right.
  - exact Hst.
  - unfold handleGenerate. destruct (negb _); [exact Hst |].
    destruct (GeminiService.generateImage response) as [url | e]; [| exact Hst].
    destruct quota as [e |]; [done |]. by left.
  - destruct (history st !! index); exact Hst.
  - unfold handleClearHistory. destruct confirmed; [by right | exact Hst].
Qed.

Lemma run_bounded acts st : bounded st → bounded (ImageGeneratorView.run acts st).
Proof.
  revert st. induction acts as [| a acts IH]; intros st Hst; [done |].
  apply IH. by apply act_bounded.
Qed.

Lemma run_mirrored acts st :
  forallb ImageGeneratorView.stores acts = true → mirrored st →
  mirrored (ImageGeneratorView.run acts st).
Proof.
  revert st. induction acts as [| a acts IH]; intros st Hacts Hst; [done |].
  cbn [forallb] in Hacts. apply andb_true_iff in Hacts as [Ha Hacts].
  apply IH; [done |]. by apply act_mirrored.
Qed.

Lemma reload_mirrored st :
  mirrored st →
  history (ImageGeneratorView.mount (ImageGeneratorView.initial (stored st))) = history st.
Proof.
  unfold ImageGeneratorView.mount. cbn [stored ImageGeneratorView.initial].
  by intros [-> | [-> ->]].
Qed.

(** From a store that holds at most 20 records, and whatever happens in
    the view afterwards (edits, generations that succeed or fail,
    selections, clearing): the history never has more than 20 records; and
    as long as storing does not fail, a reload of the view shows the very
    history it shows now. *)
Theorem gallery_survives_reload
    (acts : list ImageGeneratorView.Action) (stored0 : option (list ImageHistoryItem)) :
  (∀ h, stored0 = Some h → length h ≤ 20) →
  length (history (ImageGeneratorView.run (ImageGeneratorView.Mount :: acts)
                     (ImageGeneratorView.initial stored0))) ≤ 20
  ∧ (forallb ImageGeneratorView.stores acts = true →
     history
       (ImageGeneratorView.mount
          (ImageGeneratorView.initial
             (stored (ImageGeneratorView.run (ImageGeneratorView.Mount :: acts)
                        (ImageGeneratorView.initial stored0)))))
     = history (ImageGeneratorView.run (ImageGeneratorView.Mount :: acts)
                  (ImageGeneratorView.initial stored0))).
Proof.
  intros Hstored0.
  change (ImageGeneratorView.run (ImageGeneratorView.Mount :: acts)
            (ImageGeneratorView.initial stored0))
    with (ImageGeneratorView.run acts
            (ImageGeneratorView.mount (ImageGeneratorView.initial stored0))).
  assert (Hbounded : bounded (ImageGeneratorView.mount (ImageGeneratorView.initial stored0))).
  { unfold ImageGeneratorView.mount. cbn [stored ImageGeneratorView.initial].
    destruct stored0 as [h |]; split; cbn;
      [by apply Hstored0 | exact Hstored0 | lia | done]. }
  assert (Hmirrored : mirrored (ImageGeneratorView.mount (ImageGeneratorView.initial stored0))).
  { unfold ImageGeneratorView.mount. cbn [stored ImageGeneratorView.initial].
    destruct stored0 as [h |]; [by left | by right]. }
  split; [by apply run_bounded |].
  intros Hacts. apply reload_mirrored. by apply run_mirrored.
Qed.

(** A stored record, then: two generations around a failed one, a
    selection, and clearing declined. *)
Definition old_record : ImageHistoryItem :=
  {| id := 5; item_prompt := "a dog"; url := "data:image/jpeg;base64,RE9H";
     item_aspectRatio := Square |}.

Definition gallery_actions : list ImageGeneratorView.Action :=
  [ImageGeneratorView.Edit "a cat" Landscape;
   ImageGeneratorView.Generate 10 (Fulfilled (Some ["QUJD"])) None;
   ImageGeneratorView.Generate 11 (Rejected (OtherValue None)) None;
   ImageGeneratorView.Select 1;
   ImageGeneratorView.Generate 12 (Fulfilled (Some ["REVG"])) None;
   ImageGeneratorView.Clear false].

Lemma gallery_survives_reload_witness :
  length (history (ImageGeneratorView.run (ImageGeneratorView.Mount :: gallery_actions)
                     (ImageGeneratorView.initial (Some [old_record])))) ≤ 20
  ∧ (forallb ImageGeneratorView.stores gallery_actions = true →
     history
       (ImageGeneratorView.mount
          (ImageGeneratorView.initial
             (stored (ImageGeneratorView.run (ImageGeneratorView.Mount :: gallery_actions)
                        (ImageGeneratorView.initial (Some [old_record]))))))
     = history (ImageGeneratorView.run (ImageGeneratorView.Mount :: gallery_actions)
                  (ImageGeneratorView.initial (Some [old_record])))).
Proof.
  apply (gallery_survives_reload gallery_actions (Some [old_record])).
  intros h [= <-]. cbn. lia.
Defined.

Example gallery_prompts :
  map item_prompt
    (history (ImageGeneratorView.run (ImageGeneratorView.Mount :: gallery_actions)
                (ImageGeneratorView.initial (Some [old_record]))))
  = ["a dog"; "a cat"; "a dog"].
Proof. reflexivity. Qed.




(** *** The keys of the gallery *)

(** Newest first: every record is younger than the ones after it. *)
Definition descending h : Prop := StronglySorted (λ a b, (id b < id a)%N) h.

Lemma descending_take (n : nat) h : descending h → descending (take n h).
Proof.
  intros Hh. revert n. induction Hh as [| a h Hh IH Ha]; intros [| n]; cbn [take];
    try constructor.
  - apply IH.
  - by apply Forall_take.
Qed.

Lemma descending_NoDup h : descending h → NoDup (map id h).
Proof.
  induction 1 as [| a h Hh IH Ha]; cbn [map]; constructor; [| done].
  intros Hin%list_elem_of_In%in_map_iff. destruct Hin as (b & Hid & Hb%list_elem_of_In).
  rewrite Forall_forall in Ha. specialize (Ha b Hb). lia.
Qed.

Lemma generate_descending st (g : Generation) :
  prompted g → descending (history st) →
  Forall (λ item, (id item < g_now g)%N) (history st) →
  descending (history (generate st g))
  ∧ Forall (λ item, (id item <= g_now g)%N) (history (generate st g)).
Proof.
  intros Hg Hst Hnow. destruct (generate_pushes st g Hg) as [-> _].
  unfold push. rewrite slice0_20. split.
  - apply descending_take. by constructor.
  - apply Forall_take. constructor; [cbn; lia |].
    eapply Forall_impl; [exact Hnow |]. cbn. intros. lia.
Qed.

(** With a clock that has advanced between any two generations, and past
    the records already there: the records of the history are in strictly
    descending order of their ids, so no two records of the gallery have
    the same key. *)
Theorem gallery_keys_distinct (gs : list Generation) st :
  Forall prompted gs →
  descending (history st) →
  StronglySorted N.lt (map g_now gs) →
  Forall (λ g, Forall (λ item, (id item < g_now g)%N) (history st)) gs →
  descending (history (generations gs st))
  ∧ NoDup (map id (history (generations gs st))).
Proof.
  intros Hgs Hst Hclock Hpast.
  assert (Hdesc : descending (history (generations gs st))); [| by split; [| apply descending_NoDup]].
  revert st Hst Hclock Hpast.
  induction Hgs as [| g gs Hg _ IH]; intros st Hst Hclock Hpast; [done |].
  cbn [map] in Hclock. apply StronglySorted_inv in Hclock as [Hclock Hlater].
  apply Forall_cons in Hpast as [Hnow Hpast].
  destruct (generate_descending st g Hg Hst Hnow) as [Hdesc Hupto].
  unfold generations in *. cbn [fold_left]. apply IH; [done | done |].
  apply Forall_forall. intros g' Hg'.
  eapply Forall_impl; [exact Hupto |]. cbn. intros item Hitem.
  assert (g_now g < g_now g')%N; [| lia].
  apply (proj1 (Forall_forall _ _) Hlater).
  apply list_elem_of_In, in_map, list_elem_of_In, Hg'.
Qed.

Lemma gallery_keys_distinct_witness :
  descending (history (generations sample_generations empty_generator))
  ∧ NoDup (map id (history (generations sample_generations empty_generator))).
Proof.
  apply (gallery_keys_distinct sample_generations empty_generator).
  - repeat constructor.
  - constructor.
  - unfold sample_generations. rewrite map_map. cbn [ImageGenerator.g_now].
    cbn [seq map]. repeat (constructor; [| repeat (constructor; [cbn; lia |]); constructor]).
    constructor.
  - repeat (constructor; [constructor |]). constructor.
Defined.

End Gallery.

(** ** More JavaScript strings *)

Module JsText.

Import Js.

(** [s.split(sep)] for a separator of one code unit: never empty. *)
Fixpoint split (sep : ascii) (s : string) : list string :=
  match s with
  | EmptyString => [EmptyString]
  | String c s' =>
      if Ascii.eqb c sep then EmptyString :: split sep s'
      else
        match split sep s' with
        | piece :: pieces => String c piece :: pieces
        | [] => [String c EmptyString]
        end
  end.

(** [s.startsWith(prefix)] *)
Definition startsWith (prefix s : string) : bool := String.prefix prefix s.

(** The line terminators below 256, which [.] does not match. *)
Definition is_line_terminator (c : ascii) : bool :=
  Ascii.eqb c "010"%char || Ascii.eqb c "013"%char.

(** [(.*?);] at the start of [s]: the shortest run of characters other
    than line terminators that is followed by a semicolon. *)
Fixpoint lazy_until_semicolon (s : string) : option string :=
  match s with
  | EmptyString => None
  | String c s' =>
      if Ascii.eqb c ";"%char then Some EmptyString
      else if is_line_terminator c then None
      else option_map (String c) (lazy_until_semicolon s')
  end.

(** [s.match(/:(.*?);/)?.[1]]: the group of the leftmost match. *)
Fixpoint match_colon_semicolon (s : string) : option string :=
  match s with
  | EmptyString => None
  | String c s' =>
      if Ascii.eqb c ":"%char then
        match lazy_until_semicolon s' with
        | Some group => Some group
        | None => match_colon_semicolon s'
        end
      else match_colon_semicolon s'
  end.

End JsText.

(** ** components/ImageEditor.tsx: the rest of the view *)

Module ImageEditorView.

Import Js.
Import ImageEditor.

(** The request that [handleGenerate] builds from the data URL of the
    original image: [const [header, data] = originalImage.split(',')] and
    [header.match(/:(.*?);/)?.[1] || 'image/png']. *)
Definition request (originalImage : string) : option string * string :=
  let pieces := JsText.split ","%char originalImage in
  let header := default "" (pieces !! 0) in
  let data := pieces !! 1 in
  (data, or_else (JsText.match_colon_semicolon header) "image/png").

(** [fileType] is [file.type] and [dataUrl] what [fileToDataUrl] settles
    with; the state is the one in which the handler returns, or in which
    it ends when the reader fails. *)
Definition handleImageUpload (fileType : string) (dataUrl : Settled string) (st : State)
  : State :=
  if negb (JsText.startsWith "image/" fileType) then
    reject "Please upload a valid image file." st
  else
    {| originalImage :=
         match dataUrl with
         | Fulfilled url => Some url
         | Rejected _ => originalImage st
         end;
       prompt := prompt st; editedImage := None; responseText := None;
       loading := loading st; error := None;
       history := history st; stored := stored st |}.

Definition handleSelectFromHistory (item : EditHistoryItem) (st : State) : State :=
  {| originalImage := Some (originalUrl item); prompt := item_prompt item;
     editedImage := Some (editedUrl item); responseText := None;
     loading := loading st; error := None;
     history := history st; stored := stored st |}.

Definition handleClearHistory (confirmed : bool) (st : State) : State :=
  if confirmed then
    {| originalImage := originalImage st; prompt := prompt st;
       editedImage := editedImage st; responseText := responseText st;
       loading := loading st; error := error st; history := []; stored := None |}
  else st.

End ImageEditorView.

(** ** components/Chatbot.tsx: reading the attachment *)

(** [(reader.result as string).split(',')[1]] in [fileToGenerativePart]. *)
Definition payload_of (readerResult : string) : option string :=
  JsText.split ","%char readerResult !! 1.

(** The [src] that [MessageBubble] gives to an attached image. *)
Definition bubble_src (d : Types.InlineData) : string :=
  "data:" +:+ Types.mimeType d +:+ ";base64," +:+ Types.data d.

Section DataUrls.

Import Js.

(** No code unit of [s] is [c]. *)
Fixpoint lacks (c : ascii) (s : string) : bool :=
  match s with
  | EmptyString => true
  | String x s' => negb (Ascii.eqb x c) && lacks c s'
  end.

Lemma split_lacks (sep : ascii) (s : string) :
  lacks sep s = true → JsText.split sep s = [s].
Proof.
  induction s as [| c s IH]; [done |]. cbn [lacks JsText.split].
  intros [Hc Hs]%andb_true_iff. apply negb_true_iff in Hc. by rewrite Hc, IH.
Qed.

Lemma split_at (sep : ascii) (s t : string) :
  lacks sep s = true →
  JsText.split sep (s +:+ String sep t) = s :: JsText.split sep t.
Proof.
  induction s as [| c s IH].
  - intros _. cbn [JsText.split]. rewrite append_nil_l. cbn [JsText.split].
    by rewrite Ascii.eqb_refl.
  - cbn [lacks]. intros [Hc Hs]%andb_true_iff. apply negb_true_iff in Hc.
    rewrite append_cons. cbn [JsText.split]. by rewrite Hc, IH.
Qed.

Lemma lazy_at (s t : string) :
  lacks ";"%char s = true → lacks "010"%char s = true → lacks "013"%char s = true →
  JsText.lazy_until_semicolon (s +:+ String ";"%char t) = Some s.
Proof.
  induction s as [| c s IH]; [done |]. cbn [lacks].
  intros [Hc Hs]%andb_true_iff [Hlf Hs']%andb_true_iff [Hcr Hs'']%andb_true_iff.
  apply negb_true_iff in Hc, Hlf, Hcr.
  rewrite append_cons. cbn [JsText.lazy_until_semicolon].
  unfold JsText.is_line_terminator. by rewrite Hc, Hlf, Hcr, IH.
Qed.

(** A data URL is taken apart into what it was made of.  For a media type
    that is not empty and has no comma, semicolon or line break, and a
    payload without comma (as base64 text is), the URL
    [data:<type>;base64,<payload>], which is what [editImage] returns and
    what the message bubble shows:
    - gives the image editor's request this payload and this media type;
    - gives the chat's file part this payload;
    and the bubble's URL for the part made from it is the URL again. *)
Theorem data_url_round_trip (mimeType data : string) :
  truthy mimeType = true →
  lacks ","%char mimeType = true → lacks ";"%char mimeType = true →
  lacks "010"%char mimeType = true → lacks "013"%char mimeType = true →
  lacks ","%char data = true →
  ImageEditorView.request
    (dataUrl {| Types.mimeType := mimeType; Types.data := data |})
  = (Some data, mimeType)
  ∧ payload_of (dataUrl {| Types.mimeType := mimeType; Types.data := data |}) = Some data
  ∧ (∀ payload,
       payload_of (dataUrl {| Types.mimeType := mimeType; Types.data := data |})
       = Some payload →
       bubble_src {| Types.mimeType := mimeType; Types.data := payload |}
       = dataUrl {| Types.mimeType := mimeType; Types.data := data |}).
Proof.
  intros Htruthy Hcomma Hsemi Hlf Hcr Hdata.
  assert (Hsplit : JsText.split ","%char
                     (dataUrl {| Types.mimeType := mimeType; Types.data := data |})
                   = ["data:" +:+ mimeType +:+ ";base64"; data]).
  { unfold dataUrl. cbn [Types.mimeType Types.data].
    replace ("data:" +:+ mimeType +:+ ";base64," +:+ data)
      with (("data:" +:+ mimeType +:+ ";base64") +:+ String ","%char data)
      by (by rewrite !append_assoc).
    assert (Hpieces : ∀ s t, lacks ","%char s = true → lacks ","%char t = true →
                             lacks ","%char (s +:+ t) = true).
    { intros s t Hs Ht. induction s as [| c s IH]; [done |].
      rewrite append_cons. cbn [lacks] in *.
      apply andb_true_iff in Hs as [-> Hs]. by rewrite IH. }
    assert (Hheader : lacks ","%char ("data:" +:+ mimeType +:+ ";base64") = true)
      by (apply (Hpieces "data:"); [done |]; by apply Hpieces).
    rewrite split_at by done. by rewrite (split_lacks _ data). }
  assert (Hmatch : JsText.match_colon_semicolon ("data:" +:+ mimeType +:+ ";base64")
                   = Some mimeType).
  { change ("data:" +:+ mimeType +:+ ";base64")
      with (String "d" (String "a" (String "t" (String "a" (String ":"
              (mimeType +:+ String ";"%char "base64")))))).
    cbn [JsText.match_colon_semicolon Ascii.eqb Bool.eqb]. by rewrite lazy_at. }
  split; [| split].
  - unfold ImageEditorView.request. rewrite Hsplit.
    change (default "" ([("data:" +:+ mimeType +:+ ";base64"); data] !! 0))
      with ("data:" +:+ mimeType +:+ ";base64").
    rewrite Hmatch. cbn [or_else]. by rewrite Htruthy.
  - unfold payload_of. by rewrite Hsplit.
  - intros payload. unfold payload_of. rewrite Hsplit. by intros [= <-].
Qed.

Lemma data_url_round_trip_witness :
  ImageEditorView.request "data:image/png;base64,QUJD" = (Some "QUJD", "image/png")
  ∧ payload_of "data:image/png;base64,QUJD" = Some "QUJD"
  ∧ (∀ payload,
       payload_of "data:image/png;base64,QUJD" = Some payload →
       bubble_src {| Types.mimeType := "image/png"; Types.data := payload |}
       = "data:image/png;base64,QUJD").
Proof.
  apply (data_url_round_trip "image/png" "QUJD"); reflexivity.
Defined.

(** Without a media type in the URL the request says [image/png]; without
    a comma there is no payload. *)
Example request_fallback :
  ImageEditorView.request "data:;base64,QUJD" = (Some "QUJD", "image/png")
  ∧ ImageEditorView.request "QUJD" = (None, "image/png").
Proof. split; reflexivity. Qed.

End DataUrls.

(** ** components/Chatbot.tsx: the rest of the conversation *)

Module ChatbotView.

Import Js.
Import Chatbot.

(** The initial values of the state cells. *)
Definition initial : State :=
  {| messages := []; input := ""; attachedFile := None; fileType := None;
     loading := false; isTranscribing := false; error := None;
     isTtsEnabled := false; chatRef := false; speechSynthesis := [] |}.

Definition setIsTtsEnabled (b : bool) (st : State) : State :=
  {| messages := messages st; input := input st; attachedFile := attachedFile st;
     fileType := fileType st; loading := loading st; isTranscribing := isTranscribing st;
     error := error st; isTtsEnabled := b; chatRef := chatRef st;
     speechSynthesis := speechSynthesis st |}.

Definition setChatRef (b : bool) (st : State) : State :=
  {| messages := messages st; input := input st; attachedFile := attachedFile st;
     fileType := fileType st; loading := loading st; isTranscribing := isTranscribing st;
     error := error st; isTtsEnabled := isTtsEnabled st; chatRef := b;
     speechSynthesis := speechSynthesis st |}.

(** The effect on [personaConfig]; [created] tells whether
    [ai.chats.create] returns a chat rather than throwing.  When
    [personaConfig] is a property of [Object.prototype], its
    [welcomeMessage] is undefined. *)
Definition initChat (personaConfig : Property Types.Persona) (created : bool) (st : State)
  : State :=
  let welcome :=
    match personaConfig with
    | own persona => Types.text_part (Types.welcomeMessage persona)
    | inherited _ | undefined => {| Types.text := None; Types.inlineData := None |}
    end in
  match personaConfig with
  | undefined => st
  | own _ | inherited _ =>
      if created then
        setError None
          (setMessages (λ _, [{| Types.role := Types.model; Types.parts := [welcome] |}])
             (setChatRef true st))
      else
        setMessages (λ _, [])
          (setError
             (Some "Failed to initialize AI Chat. Please check your API key and refresh the page.")
             st)
  end.

(** [toggleTts], on the state and the item ['isTtsEnabled'] of the store;
    [succeeds] tells whether [localStorage.setItem] returns. *)
Definition toggleTts (succeeds : bool) (st : State) (item : option string)
  : State * option string :=
  let newState := negb (isTtsEnabled st) in
  let st := setIsTtsEnabled newState st in
  if succeeds then
    (if negb newState then setSpeech (λ _, []) st else st,
     Some (if newState then "true" else "false"))
  else (st, item).

(** The part of the settings effect that restores the flag:
    [setIsTtsEnabled(ttsSaved === 'true')]. *)
Definition restoreTts (item : option string) (st : State) : State :=
  setIsTtsEnabled
    (match item with
     | Some ttsSaved => String.eqb ttsSaved "true"
     | None => false
     end) st.

(** [handleFileChange]; [file] is [event.target.files[0]], if any. *)
Definition handleFileChange_states (file : option File)
    (reader : option string) (transcription : Settled string) (st : State) : list State :=
  match file with
  | None => [st]
  | Some file =>
      let cleared := setError None (setAttachedFile None None st) in
      if JsText.startsWith "image/" (type file) then
        [setAttachedFile (Some file) (Some image) cleared]
      else if JsText.startsWith "audio/" (type file) then
        transcribeAudio_states reader transcription cleared
      else
        [setError (Some "Unsupported file type. Please select an image or audio file.")
           cleared]
  end.

Definition removeAttachment (st : State) : State := setAttachedFile None None st.

(** What happens in the conversation. *)
Inductive Action :=
| Init (personaConfig : Property Types.Persona) (created : bool)
| Type_ (value : string)                  (* the text field's onChange *)
| FileChange (file : option File) (reader : option string) (transcription : Settled string)
| RemoveAttachment
| Send (remote : Remote).

(** The states the view goes through during an action; the last one is
    the state after it. *)
Definition states_of (a : Action) (st : State) : list State :=
  match a with
  | Init personaConfig created => [initChat personaConfig created st]
  | Type_ value => [setInput (λ _, value) st]
  | FileChange file reader transcription =>
      handleFileChange_states file reader transcription st
  | RemoveAttachment => [removeAttachment st]
  | Send remote => handleSend_states remote st
  end.

Definition act (st : State) (a : Action) : State :=
  default st (last (states_of a st)).

(** All states the view goes through during a sequence of actions. *)
Fixpoint visited (acts : list Action) (st : State) : list State :=
  match acts with
  | [] => []
  | a :: acts' => states_of a st ++ visited acts' (act st a)
  end.

End ChatbotView.

Section ConversationMore.

Import Js.
Import Chatbot.

Implicit Types (st s : State) (remote : Remote).

(** A part of a message that is text, or an image. *)
Definition image_or_text (part : Types.MessagePart) : Prop :=
  ∀ d, Types.inlineData part = Some d →
       JsText.startsWith "image/" (Types.mimeType d) = true.

(** What the attachment cells may hold: nothing, or an image file. *)
Definition attachment_ok (file : option File) (kind : option FileKind) : Prop :=
  match file, kind with
  | None, None => True
  | Some f, Some image => JsText.startsWith "image/" (type f) = true
  | _, _ => False
  end.

Definition images_only (transcript : list Types.Message) : Prop :=
  Forall (λ m, Forall image_or_text (Types.parts m)) transcript.

Definition with_parts (transcript : list Types.Message) : Prop :=
  Forall (λ m, Types.parts m ≠ []) transcript.

Definition sound st : Prop :=
  attachment_ok (attachedFile st) (fileType st)
  ∧ images_only (messages st)
  ∧ with_parts (messages st).

Lemma sound_same st s :
  sound st → messages s = messages st →
  attachedFile s = attachedFile st → fileType s = fileType st → sound s.
Proof. unfold sound. by intros Hst -> -> ->. Qed.

Lemma sound_transcript st s (transcript : list Types.Message) :
  sound st → messages s = transcript →
  images_only transcript → with_parts transcript →
  attachedFile s = None → fileType s = None → sound s.
Proof. unfold sound. by intros _ -> ? ? -> ->. Qed.

Lemma forAwait_cells tts chunks failure fullResponse st :
  Forall (λ s, attachedFile s = attachedFile st ∧ fileType s = fileType st)
    (forAwait tts chunks failure fullResponse st).
Proof.
  revert fullResponse st.
  induction chunks as [| chunkText chunks IH]; intros fullResponse st; cbn [forAwait].
  - constructor; [done |]. destruct failure; (constructor; [| done]); [done |].
    by destruct (tts && truthy fullResponse).
  - constructor; [done |]. eapply Forall_impl; [apply IH |]. by intros s [-> ->].
Qed.

Lemma converse_cells remote tts userParts st :
  Forall (λ s, attachedFile s = None ∧ fileType s = None)
    (converse remote tts userParts st).
Proof.
  unfold converse. cbn [chatRef setAttachedFile setInput setMessages].
  destruct (chatRef st); [| by constructor].
  constructor; [done |].
  destruct (sendMessageStream remote) as [stream | e]; [| by constructor].
  eapply Forall_impl; [apply forAwait_cells |]. by intros s [-> ->].
Qed.

Lemma converse_sound remote tts userParts st :
  sound st → Forall image_or_text userParts → userParts ≠ [] →
  Forall sound (converse remote tts userParts st).
Proof.
  intros Hst Hparts Hne. pose proof Hst as (_ & Himages & Hwith).
  pose proof (converse_transcripts remote tts userParts st) as Htranscripts.
  pose proof (converse_cells remote tts userParts st) as Hcells.
  apply Forall_forall. intros s Hs.
  rewrite Forall_forall in Htranscripts, Hcells.
  destruct (Hcells s Hs) as [Hfile Hkind].
  destruct (Htranscripts s Hs) as [Hm | [Hm | [text Hm]]];
    (eapply sound_transcript; [exact Hst | exact Hm | | | done | done]).
  - done.
  - done.
  - apply Forall_app. split; [done |]. by constructor.
  - apply Forall_app. split; [done |]. by constructor.
  - apply Forall_app. split; [done |].
    constructor; [done |]. constructor; [| done]. constructor; [| done]. by intros d.
  - apply Forall_app. split; [done |]. by repeat constructor.
Qed.

Lemma handleSend_sound remote st : sound st → Forall sound (handleSend_states remote st).
Proof.
  intros Hst. pose proof Hst as (Hattach & _ & _).
  unfold handleSend_states. destruct (ignored st) eqn:Hgo; [by constructor |].
  assert (Hstarted : sound (setSpeech (λ _, []) (setError None (setLoading true st))))
    by by apply (sound_same st).
  assert (Htext : Forall image_or_text
            (if truthy (trim (input st)) then [Types.text_part (input st)] else [])).
  { destruct (truthy (trim (input st))); [| done]. constructor; [| done]. by intros d. }
  destruct (attachedFile st) as [file |] eqn:Hfile.
  - constructor; [done |].
    destruct (reader remote) as [payload |]; cbn [fileToGenerativePart]; [| done].
    apply converse_sound; [done | | done].
    apply Forall_app. split; [| done]. constructor; [| done].
    intros d [= <-]. cbn. unfold attachment_ok in Hattach.
    by destruct (fileType st) as [[|] |].
  - apply converse_sound; [done | done |].
    unfold ignored in Hgo. rewrite Hfile in Hgo.
    destruct (truthy (trim (input st))); [done |].
    rewrite bool_decide_eq_false_2 in Hgo by (by intros [? ?]). done.
Qed.

Lemma transcribeAudio_sound reader transcription st :
  sound st → Forall sound (transcribeAudio_states reader transcription st).
Proof.
  intros Hst. unfold transcribeAudio_states.
  destruct reader as [data |]; [destruct transcription as [text | e] |];
    cbn [fileToGenerativePart];
    repeat (constructor; [by apply (sound_same st) |]); constructor.
Qed.

Lemma states_of_sound (a : ChatbotView.Action) st :
  sound st → Forall sound (ChatbotView.states_of a st).
Proof.
  intros Hst. pose proof Hst as (Hattach & Himages & Hwith).
  destruct a as [personaConfig created | value | file reader transcription | | remote];
    cbn [ChatbotView.states_of].
  - constructor; [| done]. unfold ChatbotView.initChat.
    destruct personaConfig as [persona | name |]; [| | done]; destruct created;
      (split; [exact Hattach |]); split; cbn; repeat constructor; by intros d.
  - constructor; [| done]. by apply (sound_same st).
  - unfold ChatbotView.handleFileChange_states. destruct file as [file |]; [| by constructor].
    assert (Hcleared : sound (setError None (setAttachedFile None None st)))
      by (split; [done | by split]).
    destruct (JsText.startsWith "image/" (type file)) eqn:Himage.
    + constructor; [| done]. split; [exact Himage | by split].
    + destruct (JsText.startsWith "audio/" (type file)).
      * by apply transcribeAudio_sound.
      * constructor; [| done]. by apply (sound_same (setError None (setAttachedFile None None st))).
  - constructor; [| done]. split; [done | by split].
  - by apply handleSend_sound.
Qed.

Lemma act_sound (a : ChatbotView.Action) st : sound st → sound (ChatbotView.act st a).
Proof.
  intros Hst. unfold ChatbotView.act.
  pose proof (states_of_sound a st Hst) as Hstates.
  destruct (last (ChatbotView.states_of a st)) as [s |] eqn:Hlast; [| done].
  rewrite Forall_forall in Hstates. apply Hstates.
  apply last_Some in Hlast as [l ->]. apply elem_of_app. right. by apply list_elem_of_singleton.
Qed.

Lemma visited_sound (acts : list ChatbotView.Action) st :
  sound st → Forall sound (ChatbotView.visited acts st).
Proof.
  revert st. induction acts as [| a acts IH]; intros st Hst; cbn [ChatbotView.visited];
    [done |].
  apply Forall_app. split; [by apply states_of_sound |]. apply IH. by apply act_sound.
Qed.

Lemma initial_sound : sound ChatbotView.initial.
Proof. split; [done |]. split; constructor. Qed.

(** Whatever happens in the conversation, in every state it goes
    through: a file is attached only if its type starts with [image/], and
    then [fileType] is ['image'], never ['audio'] (an audio file is
    transcribed, not attached); so every file part of every message of the
    transcript is an image. *)
Theorem only_images_attached (acts : list ChatbotView.Action) :
  Forall (λ s, attachment_ok (attachedFile s) (fileType s)
               ∧ fileType s ≠ Some audio
               ∧ images_only (messages s))
    (ChatbotView.visited acts ChatbotView.initial).
Proof.
  eapply Forall_impl; [apply visited_sound, initial_sound |].
  intros s (Hattach & Himages & _). split; [done |]. split; [| done].
  intros Haudio. rewrite Haudio in Hattach. unfold attachment_ok in Hattach.
  by destruct (attachedFile s).
Qed.

(** Whatever happens in the conversation, every message of the
    transcript has at least one part, in every state it goes through. *)
Theorem messages_have_parts (acts : list ChatbotView.Action) :
  Forall (λ s, with_parts (messages s)) (ChatbotView.visited acts ChatbotView.initial).
Proof.
  eapply Forall_impl; [apply visited_sound, initial_sound |].
  by intros s (_ & _ & Hwith).
Qed.

End ConversationMore.

Section ConversationEdges.

Import Js.
Import Chatbot.

Implicit Types (st : State) (remote : Remote).

(** A send for which no stream can be opened, because no chat has been
    created or because [sendMessageStream] rejects: the user message that
    was appended is removed again by the rollback, so the transcript is the
    one before the send; but the input and the attachment have been
    cleared and stay so; the error is shown. *)
Theorem send_cannot_open remote st :
  ignored st = false → readable remote st = true →
  chatRef st = false ∨ (∃ e, sendMessageStream remote = Rejected e) →
  messages (handleSend remote st) = messages st
  ∧ input (handleSend remote st) = ""
  ∧ attachedFile (handleSend remote st) = None
  ∧ is_Some (error (handleSend remote st))
  ∧ (chatRef st = false → error (handleSend remote st) = Some "Chat not initialized.")
  ∧ loading (handleSend remote st) = false.
Proof.
  intros Hgo Hread Hclosed.
  destruct (handleSend_closed remote st Hgo Hread Hclosed) as (e & -> & Hchat).
  destruct (catch_asked remote st e) as (Hm & Hi & Ha & He & Hl).
  rewrite He. split; [done |]. split; [done |]. split; [done |]. split; [by eauto |].
  split; [| done]. intros Hnone. by rewrite (Hchat Hnone).
Qed.

(** Typing "Hi" before any chat has been created. *)
Definition too_early : State :=
  {| messages := []; input := "Hi"; attachedFile := None; fileType := None;
     loading := false; isTranscribing := false; error := None;
     isTtsEnabled := false; chatRef := false; speechSynthesis := [] |}.

Lemma send_cannot_open_witness :
  messages (handleSend hello_world too_early) = []
  ∧ input (handleSend hello_world too_early) = ""
  ∧ attachedFile (handleSend hello_world too_early) = None
  ∧ is_Some (error (handleSend hello_world too_early))
  ∧ (false = false → error (handleSend hello_world too_early) = Some "Chat not initialized.")
  ∧ loading (handleSend hello_world too_early) = false.
Proof.
  apply (send_cannot_open hello_world too_early); [reflexivity | reflexivity |].
  left. reflexivity.
Defined.

(** A send whose attachment cannot be read never returns.  The promise
    of [fileToGenerativePart] stays pending, and the handler stays
    suspended in the state of its start: [loading] is set, the error is
    cleared and none is shown, speech is cancelled; the input, the
    attachment and the transcript are what they were; and every send
    invoked from then on is ignored. *)
Theorem send_never_returns remote st (file : File) :
  ignored st = false → attachedFile st = Some file → reader remote = None →
  handleSend_states remote st = [started st]
  ∧ loading (handleSend remote st) = true
  ∧ error (handleSend remote st) = None
  ∧ speechSynthesis (handleSend remote st) = []
  ∧ input (handleSend remote st) = input st
  ∧ attachedFile (handleSend remote st) = attachedFile st
  ∧ messages (handleSend remote st) = messages st
  ∧ (∀ remote', handleSend_states remote' (handleSend remote st) = [handleSend remote st]).
Proof.
  intros Hgo Hfile Hreader.
  assert (Hstates : handleSend_states remote st = [started st]).
  { apply handleSend_states_hangs; [done |]. unfold readable. by rewrite Hfile, Hreader. }
  unfold handleSend. rewrite Hstates. cbn [last default].
  repeat split; try done.
  intros remote'. unfold handleSend_states, ignored.
  cbn [started loading setSpeech setError setLoading]. by rewrite orb_true_r.
Qed.

(** The picture cannot be read. *)
Definition unread : Remote :=
  {| reader := None;
     sendMessageStream := Fulfilled {| chunks := ["A cat."]; failure := None |} |}.

Lemma send_never_returns_witness :
  handleSend_states unread captioned = [started captioned]
  ∧ loading (handleSend unread captioned) = true
  ∧ error (handleSend unread captioned) = None.
Proof.
  destruct (send_never_returns unread captioned {| fileName := "cat.png"; type := "image/png" |})
    as (Hstates & Hloading & Herror & _); [reflexivity | reflexivity | reflexivity |].
  split; [exact Hstates |]. split; [exact Hloading | exact Herror].
Defined.

(** What is spoken after a send whose stream was opened.  Speech is
    cancelled when the send starts; when the stream ends, the whole answer
    is queued as one utterance if text-to-speech was enabled when the send
    started and the answer is not empty; nothing is queued otherwise, nor
    when the stream fails. *)
Theorem spoken_answer remote st (stream : Stream) :
  ignored st = false → readable remote st = true → chatRef st = true →
  sendMessageStream remote = Fulfilled stream →
  speechSynthesis (handleSend remote st)
  = match failure stream with
    | None =>
        if isTtsEnabled st && truthy (joined (chunks stream))
        then [joined (chunks stream)] else []
    | Some _ => []
    end.
Proof.
  intros Hgo Hread Hchat Hstream.
  rewrite (handleSend_stream_returns remote st stream Hgo Hread Hchat Hstream).
  unfold returned. destruct (failure stream); [done |].
  by destruct (isTtsEnabled st && truthy (joined (chunks stream))).
Qed.

Lemma spoken_answer_witness :
  speechSynthesis (handleSend a_cat captioned) = ["A cat."].
Proof.
  apply (spoken_answer a_cat captioned {| chunks := ["A cat."]; failure := None |});
    reflexivity.
Defined.

(** The text-to-speech switch.  When the flag can be stored, what a
    reload restores from the store is the flag the view shows, switching
    twice gives the flag back, and switching off cancels what is being
    spoken.  When storing throws, the view still shows the new flag, but the
    store keeps the old item and speech is not cancelled. *)
Theorem tts_switch st (item : option string) (reloaded_view : State) :
  isTtsEnabled (ChatbotView.restoreTts (snd (ChatbotView.toggleTts true st item)) reloaded_view)
  = isTtsEnabled (fst (ChatbotView.toggleTts true st item))
  ∧ isTtsEnabled
      (fst (ChatbotView.toggleTts true (fst (ChatbotView.toggleTts true st item))
              (snd (ChatbotView.toggleTts true st item))))
    = isTtsEnabled st
  ∧ (isTtsEnabled st = true →
     speechSynthesis (fst (ChatbotView.toggleTts true st item)) = [])
  ∧ isTtsEnabled (fst (ChatbotView.toggleTts false st item)) = negb (isTtsEnabled st)
  ∧ snd (ChatbotView.toggleTts false st item) = item
  ∧ speechSynthesis (fst (ChatbotView.toggleTts false st item)) = speechSynthesis st.
Proof.
  unfold ChatbotView.toggleTts, ChatbotView.restoreTts.
  destruct (isTtsEnabled st) eqn:Hflag; cbn; rewrite ?Hflag; repeat split; done.
Qed.

End ConversationEdges.

Section Selecting.

Import Js.

(** Selecting in the gallery the record of the generation just made
    changes nothing in the image view.  In the editor it shows again the
    original, the prompt and the edited image of the edit just made, but
    not the text that came with it, which is not kept in the history. *)
Theorem select_newest_record
    (st : ImageGenerator.State) (g : ImageGenerator.Generation)
    (st' : ImageEditor.State) (e : ImageEditor.Edit) :
  prompted g → edited e →
  (head (ImageGenerator.history (ImageGenerator.generate st g))
   = Some (ImageGenerator.record_of g)
   ∧ ImageGeneratorView.handleSelectFromHistory (ImageGenerator.record_of g)
       (ImageGenerator.generate st g)
     = ImageGenerator.generate st g)
  ∧
  (head (ImageEditor.history (ImageEditor.perform st' e)) = Some (ImageEditor.record_of e)
   ∧ ImageEditorView.handleSelectFromHistory (ImageEditor.record_of e)
       (ImageEditor.perform st' e)
     = {| ImageEditor.originalImage := ImageEditor.originalImage (ImageEditor.perform st' e);
          ImageEditor.prompt := ImageEditor.prompt (ImageEditor.perform st' e);
          ImageEditor.editedImage := ImageEditor.editedImage (ImageEditor.perform st' e);
          ImageEditor.responseText := None;
          ImageEditor.loading := ImageEditor.loading (ImageEditor.perform st' e);
          ImageEditor.error := ImageEditor.error (ImageEditor.perform st' e);
          ImageEditor.history := ImageEditor.history (ImageEditor.perform st' e);
          ImageEditor.stored := ImageEditor.stored (ImageEditor.perform st' e) |}).
Proof.
  intros Hg He. split.
  - destruct (generate_pushes st g Hg) as [Hhistory _].
    split; [rewrite Hhistory; unfold push; by rewrite slice0_20 |].
    unfold prompted in Hg.
    unfold ImageGeneratorView.handleSelectFromHistory, ImageGenerator.generate,
      ImageGenerator.handleGenerate.
    cbn [ImageGenerator.edit ImageGenerator.prompt ImageGenerator.aspectRatio
         ImageGenerator.history GeminiService.generateImage].
    rewrite Hg. reflexivity.
  - destruct (perform_pushes st' e He) as [Hhistory _].
    split; [rewrite Hhistory; unfold push; by rewrite slice0_20 |].
    unfold edited, ImageEditor.succeeds in He.
    apply andb_true_iff in He as [[Hp Ho]%andb_true_iff Hi].
    unfold ImageEditorView.handleSelectFromHistory, ImageEditor.perform,
      ImageEditor.handleGenerate, ImageEditor.record_of.
    cbn [ImageEditor.edit ImageEditor.prompt ImageEditor.originalImage
         ImageEditor.history GeminiService.editImage].
    rewrite Hp, Ho. cbn [negb].
    destruct (GeminiService.edit_parts (ImageEditor.e_parts e)) as [imageUrl text].
    cbn [fst] in Hi |- *. rewrite Hi.
    destruct imageUrl as [url |]; [| done].
    unfold ImageEditorView.handleSelectFromHistory. simpl. simpl in Hi. by rewrite Hi.
Qed.

Lemma select_newest_record_witness :
  (head (ImageGenerator.history
           (ImageGenerator.generate empty_generator
              {| ImageGenerator.g_prompt := "a cat";
                 ImageGenerator.g_aspectRatio := ImageGenerator.Landscape;
                 ImageGenerator.g_now := 7; ImageGenerator.g_imageBytes := "QUJD";
                 ImageGenerator.g_moreImages := [] |}))
   = Some {| ImageGenerator.id := 7; ImageGenerator.item_prompt := "a cat";
             ImageGenerator.url := "data:image/jpeg;base64,QUJD";
             ImageGenerator.item_aspectRatio := ImageGenerator.Landscape |})
  ∧ (head (ImageEditor.history
             (ImageEditor.perform empty_editor
                {| ImageEditor.e_prompt := "add a hat";
                   ImageEditor.e_original := "data:image/png;base64,QUJD";
                   ImageEditor.e_now := 8; ImageEditor.e_parts := sample_parts;
                   ImageEditor.e_moreCandidates := [] |}))
     = Some {| ImageEditor.id := 8; ImageEditor.item_prompt := "add a hat";
               ImageEditor.originalUrl := "data:image/png;base64,QUJD";
               ImageEditor.editedUrl := "data:image/png;base64,QQ==" |}).
Proof.
  destruct (select_newest_record empty_generator
              {| ImageGenerator.g_prompt := "a cat";
                 ImageGenerator.g_aspectRatio := ImageGenerator.Landscape;
                 ImageGenerator.g_now := 7; ImageGenerator.g_imageBytes := "QUJD";
                 ImageGenerator.g_moreImages := [] |}
              empty_editor
              {| ImageEditor.e_prompt := "add a hat";
                 ImageEditor.e_original := "data:image/png;base64,QUJD";
                 ImageEditor.e_now := 8; ImageEditor.e_parts := sample_parts;
                 ImageEditor.e_moreCandidates := [] |})
    as [[Hg _] [He _]]; [reflexivity | reflexivity |].
  split; [exact Hg | exact He].
Defined.

End Selecting.
